(** * Verification of the negotiation core of web-rtc-peer

    Shallow embedding of [src/src/main.ts] and [src/unnamed/part_000]:
    the SDP text transforms ([removeFIDFromOffer], [getSimulcastInfo],
    [mangleSdpToAddSimulcast]), the remote candidate gate
    ([bufferizeCandidates]), the outbound candidate buffer of the
    [WebRtcPeer] constructor, [processOffer] and [dispose].

    JavaScript strings are modelled as [String.string]; every index used
    below is measured on that representation. *)

From Stdlib Require Import String Ascii List Bool ZArith Lia Permutation.
Import ListNotations.
Open Scope string_scope.

(* ------------------------------------------------------------------ *)
(** ** String helpers: [indexOf] and [slice] *)

Module JsString.

(** [starts_with p s]: [s] begins with [p]. *)
Fixpoint starts_with (p s : string) : bool :=
  match p, s with
  | EmptyString, _ => true
  | String a p', String b s' => Ascii.eqb a b && starts_with p' s'
  | String _ _, EmptyString => false
  end.

(** Position of the first occurrence of [p] in [s]. *)
Fixpoint index_of (p s : string) : option nat :=
  if starts_with p s then Some 0
  else match s with
       | EmptyString => None
       | String _ s' => option_map S (index_of p s')
       end.

(** [s.indexOf(p)]: the first position, or [-1] when absent. *)
Definition indexOf (s p : string) : Z :=
  match index_of p s with
  | Some n => Z.of_nat n
  | None => (-1)%Z
  end.

(** [s.slice(0, n)] for [0 <= n]. *)
Fixpoint take (n : nat) (s : string) : string :=
  match n, s with
  | O, _ => EmptyString
  | S _, EmptyString => EmptyString
  | S n', String c s' => String c (take n' s')
  end.

Definition slice0 (s : string) (n : Z) : string := take (Z.to_nat n) s.

(** [p] is a prefix of [s]. *)
Definition is_prefix (p s : string) : Prop := exists r, s = p ++ r.

End JsString.

Import JsString.

(* ------------------------------------------------------------------ *)
(** ** The Description Mangler *)

(** The single-layer media-grouping marker. *)
Definition FID_MARKER : string := "a=ssrc-group:FID".

(** [removeFIDFromOffer] (part_000 lines 39-42, main.ts lines 51-54):
<<
  const n = sdp.indexOf('a=ssrc-group:FID')
  return n > 0 ? sdp.slice(0, n) : sdp
>> *)
Definition removeFIDFromOffer (sdp : string) : string :=
  let n := indexOf sdp FID_MARKER in
  if (n >? 0)%Z then slice0 sdp n else sdp.

(* ------------------------------------------------------------------ *)
(** ** Line splitting, as [text.split('\n')] *)

Definition nl_char : ascii := ascii_of_nat 10.
Definition nl : string := String nl_char EmptyString.

Fixpoint has_nl (s : string) : bool :=
  match s with
  | EmptyString => false
  | String c s' => Ascii.eqb c nl_char || has_nl s'
  end.

Definition prepend_first (a : string) (ls : list string) : list string :=
  match ls with
  | [] => [a]
  | l :: ls' => (a ++ l) :: ls'
  end.

Fixpoint lines (s : string) : list string :=
  match s with
  | EmptyString => [EmptyString]
  | String c s' =>
      if Ascii.eqb c nl_char then EmptyString :: lines s'
      else prepend_first (String c EmptyString) (lines s')
  end.

(** [s.includes(x)] *)
Definition contains (x s : string) : bool :=
  match index_of x s with Some _ => true | None => false end.

(** An [a=ssrc:<id> ...] line and its id (the text up to the first space). *)
Definition SSRC_PREFIX : string := "a=ssrc:".
Definition is_ssrc_line (l : string) : bool := starts_with SSRC_PREFIX l.

Fixpoint upto_space (s : string) : string :=
  match s with
  | EmptyString => EmptyString
  | String c s' => if Ascii.eqb c " "%char then EmptyString else String c (upto_space s')
  end.

Fixpoint drop (n : nat) (s : string) : string :=
  match n, s with
  | O, _ => s
  | S _, EmptyString => EmptyString
  | S n', String _ s' => drop n' s'
  end.

Definition ssrc_id (l : string) : string :=
  upto_space (drop (String.length SSRC_PREFIX) l).

(** A grouping directive line [a=ssrc-group:...]. *)
Definition is_group_line (l : string) : bool := starts_with "a=ssrc-group:" l.

(* ------------------------------------------------------------------ *)
(** ** Media streams and session descriptions *)

Record MediaStreamTrack := { track_id : string }.

(** A [MediaStream]: its [id] and the result of [getVideoTracks()]. *)
Record MediaStream := {
  stream_id : string;
  video_tracks : list MediaStreamTrack
}.

Inductive RTCSdpType := SdpOffer | SdpAnswer | SdpPranswer | SdpRollback.

Record RTCSessionDescription := {
  sd_type : RTCSdpType;
  sd_sdp : string
}.

(** Exceptions thrown by the code: [new Error(msg)], and the [TypeError]
    of a property access on [undefined]. *)
Inductive js_error :=
| Error (msg : string)
| TypeError.

(** Messages written to [logger.warn]. *)
Definition Log := list string.

(** [getSimulcastInfo] (part_000 lines 44-64, main.ts lines 56-76): the
    warning it logs and the text it returns. The template literal is
    written out line by line, [nl] being its line breaks. *)
Definition getSimulcastInfo (videoStream : MediaStream) : Log * string :=
  match video_tracks videoStream with
  | [] => (["No video tracks available in the video stream"], EmptyString)
  | t0 :: _ =>
      let sid := stream_id videoStream in
      let tid := track_id t0 in
      ([],
       "a=x-google-flag:conference" ++ nl ++
       "a=ssrc-group:SIM 1 2 3" ++ nl ++
       "a=ssrc:1 cname:localVideo" ++ nl ++
       "a=ssrc:1 msid:" ++ sid ++ " " ++ tid ++ "," ++ nl ++
       "a=ssrc:1 mslabel:" ++ sid ++ "," ++ nl ++
       "a=ssrc:1 label:" ++ tid ++ nl ++
       "a=ssrc:2 cname:localVideo'" ++ nl ++
       "a=ssrc:2 msid:" ++ sid ++ " " ++ tid ++ "," ++ nl ++
       "a=ssrc:2 mslabel:" ++ sid ++ nl ++
       "a=ssrc:2 label:" ++ tid ++ nl ++
       "a=ssrc:3 cname:localVideo" ++ nl ++
       "a=ssrc:3 msid:" ++ sid ++ " " ++ tid ++ "," ++ nl ++
       "a=ssrc:3 mslabel:" ++ sid ++ nl ++
       "a=ssrc:3 label:" ++ tid)
  end.

(** Appending the block to a description text, as the [+] of
    [mangleSdpToAddSimulcast] does. *)
Definition appendSimulcastBlock (description : string) (videoStream : MediaStream) : string :=
  description ++ snd (getSimulcastInfo videoStream).

(** [WebRtcPeer.mangleSdpToAddSimulcast] (main.ts lines 443-452). The
    peer's [videoStream] is [None] when it is [undefined]; then
    [getVideoTracks] is called on [undefined] and a [TypeError] is
    thrown. *)
Definition mangleSdpToAddSimulcast (simulcast : bool) (videoStream : option MediaStream)
    (answer : RTCSessionDescription) : js_error + RTCSessionDescription :=
  if simulcast then
    match videoStream with
    | None => inl TypeError
    | Some vs =>
        inr {| sd_type := sd_type answer;
               sd_sdp := removeFIDFromOffer (sd_sdp answer) ++ snd (getSimulcastInfo vs) |}
    end
  else inr answer.

(* ------------------------------------------------------------------ *)
(** ** The connection and [processOffer] *)

Inductive RTCSignalingState :=
| Stable | HaveLocalOffer | HaveRemoteOffer
| HaveLocalPranswer | HaveRemotePranswer | Closed.

Definition RTCSignalingState_eqb (a b : RTCSignalingState) : bool :=
  match a, b with
  | Stable, Stable | HaveLocalOffer, HaveLocalOffer
  | HaveRemoteOffer, HaveRemoteOffer | HaveLocalPranswer, HaveLocalPranswer
  | HaveRemotePranswer, HaveRemotePranswer | Closed, Closed => true
  | _, _ => false
  end.

(** The part of an [RTCPeerConnection] the negotiation reads and writes. *)
Record RTCPeerConnection := {
  signalingState : RTCSignalingState;
  localDescription : option RTCSessionDescription;
  remoteDescription : option RTCSessionDescription
}.

Section Negotiation.

(** The connection's own operations, which belong to the browser:
    [setRemoteDescription] and [createAnswer] may fail. *)
Variable setRemoteDescription :
  RTCPeerConnection -> RTCSessionDescription -> js_error + RTCPeerConnection.
Variable createAnswer : RTCPeerConnection -> js_error + RTCSessionDescription.

(** The peer's [simulcast] flag and [videoStream]. *)
Variable simulcast : bool.
Variable videoStream : option MediaStream.

(** [WebRtcPeer.processOffer] (main.ts lines 378-396): the outcome of the
    returned promise and the connection afterwards. [setRemoteVideo] only
    drives the video element and is left out. *)
Definition processOffer (pc : RTCPeerConnection) (sdp : string)
    : (js_error + string) * RTCPeerConnection :=
  let offer := {| sd_type := SdpOffer; sd_sdp := sdp |} in
  if RTCSignalingState_eqb (signalingState pc) Closed
  then (inl (Error "PeerConnection is closed"), pc)
  else
    match setRemoteDescription pc offer with
    | inl e => (inl e, pc)
    | inr pc1 =>
        match createAnswer pc1 with
        | inl e => (inl e, pc1)
        | inr answer =>
            match mangleSdpToAddSimulcast simulcast videoStream answer with
            | inl e => (inl e, pc1)
            | inr _ =>
                match localDescription pc1 with
                | None => (inl (Error "no local description"), pc1)
                | Some ld => (inr (sd_sdp ld), pc1)
                end
            end
        end
    end.

End Negotiation.

(** The browser's [setRemoteDescription], as the WebRTC API defines its
    state transitions: a remote offer is accepted in [stable] and in
    [have-remote-offer] and leads to [have-remote-offer]; a remote answer
    is accepted in [have-local-offer] and [have-remote-pranswer] and
    leads to [stable]; a remote provisional answer is accepted in the
    same two states and leads to [have-remote-pranswer]. Any other
    combination is an [InvalidStateError]. Rollback, and the implicit
    rollback of a local offer by a remote one, are not modelled: such a
    description is rejected, as browsers did before implicit rollback
    was specified. *)
Definition browser_setRemoteDescription (pc : RTCPeerConnection) (d : RTCSessionDescription)
    : js_error + RTCPeerConnection :=
  match signalingState pc, sd_type d with
  | Stable, SdpOffer | HaveRemoteOffer, SdpOffer =>
      inr {| signalingState := HaveRemoteOffer;
             localDescription := localDescription pc;
             remoteDescription := Some d |}
  | HaveLocalOffer, SdpAnswer | HaveRemotePranswer, SdpAnswer =>
      inr {| signalingState := Stable;
             localDescription := localDescription pc;
             remoteDescription := Some d |}
  | HaveLocalOffer, SdpPranswer | HaveRemotePranswer, SdpPranswer =>
      inr {| signalingState := HaveRemotePranswer;
             localDescription := localDescription pc;
             remoteDescription := Some d |}
  | _, _ => inl (Error "InvalidStateError")
  end.

Definition browser_createAnswer (answer_sdp : string) (pc : RTCPeerConnection)
    : js_error + RTCSessionDescription :=
  match signalingState pc with
  | HaveRemoteOffer | HaveLocalPranswer =>
      inr {| sd_type := SdpAnswer; sd_sdp := answer_sdp |}
  | _ => inl (Error "InvalidStateError")
  end.

(* ------------------------------------------------------------------ *)
(** ** The Signaling Gate: [bufferizeCandidates] *)

(** How a promise settled. *)
Inductive settlement :=
| Resolved
| Rejected (e : js_error).

Section Gate.

Variable Cand : Type.

(** The outcome of the connection's [addIceCandidate(candidate)]. *)
Variable addIceCandidate : Cand -> settlement.

(** The state the gate sees: the connection's signaling state and whether
    it has a remote description, the closure's [candidatesQueue] (each
    entry a submission number with its candidate; the number stands for
    the [resolve]/[reject] pair of that submission), the candidates passed
    to [addIceCandidate] so far and the promises settled so far. *)
Record gate := {
  sig : RTCSignalingState;
  remote_set : bool;
  candidatesQueue : list (nat * Cand);
  applied : list Cand;
  settled : list (nat * settlement)
}.

Definition with_queue (g : gate) (q : list (nat * Cand)) : gate :=
  {| sig := sig g; remote_set := remote_set g; candidatesQueue := q;
     applied := applied g; settled := settled g |}.

Definition settle (id : nat) (r : settlement) (g : gate) : gate :=
  {| sig := sig g; remote_set := remote_set g; candidatesQueue := candidatesQueue g;
     applied := applied g; settled := settled g ++ [(id, r)] |}.

(** [pc.addIceCandidate(candidate).then(resolve, reject)] *)
Definition apply_candidate (g : gate) (sub : nat * Cand) : gate :=
  let '(id, c) := sub in
  {| sig := sig g; remote_set := remote_set g; candidatesQueue := candidatesQueue g;
     applied := applied g ++ [c]; settled := settled g ++ [(id, addIceCandidate c)] |}.

(** The function returned by [bufferizeCandidates] (part_000 lines
    20-36), called for submission [id]. *)
Definition submit (id : nat) (c : Cand) (g : gate) : gate :=
  match sig g with
  | Closed => settle id (Rejected (Error "PeerConnection object is closed")) g
  | Stable =>
      if remote_set g then apply_candidate g (id, c)
      else settle id (Rejected (Error "No Remote Description")) g
  | _ => with_queue g (candidatesQueue g ++ [(id, c)])
  end.

(** The [signalingstatechange] listener (part_000 lines 13-18). *)
Definition on_signalingstatechange (g : gate) : gate :=
  if negb (RTCSignalingState_eqb (sig g) Stable) then g
  else with_queue (fold_left apply_candidate (candidatesQueue g) g) [].

(** The connection moves to state [s] (with or without a remote
    description) and fires [signalingstatechange]. *)
Definition state_change (s : RTCSignalingState) (r : bool) (g : gate) : gate :=
  on_signalingstatechange
    {| sig := s; remote_set := r; candidatesQueue := candidatesQueue g;
       applied := applied g; settled := settled g |}.

Inductive gate_event :=
| Submit (id : nat) (c : Cand)
| StateChange (s : RTCSignalingState) (r : bool).

Definition gate_step (g : gate) (ev : gate_event) : gate :=
  match ev with
  | Submit id c => submit id c g
  | StateChange s r => state_change s r g
  end.

Definition run_gate (evs : list gate_event) (g : gate) : gate :=
  fold_left gate_step evs g.

(** The promise of submission [id]: [None] while pending. *)
Definition status (id : nat) (g : gate) : option settlement :=
  option_map snd (find (fun p => Nat.eqb (fst p) id) (settled g)).

End Gate.

Arguments Submit {Cand} id c.
Arguments StateChange {Cand} s r.
Arguments sig {Cand} g.
Arguments remote_set {Cand} g.
Arguments candidatesQueue {Cand} g.
Arguments applied {Cand} g.
Arguments settled {Cand} g.
Arguments Build_gate {Cand} sig remote_set candidatesQueue applied settled.
Arguments with_queue {Cand} g q.
Arguments settle {Cand} id r g.
Arguments apply_candidate {Cand} addIceCandidate g sub.
Arguments submit {Cand} addIceCandidate id c g.
Arguments on_signalingstatechange {Cand} addIceCandidate g.
Arguments state_change {Cand} addIceCandidate s r g.
Arguments gate_step {Cand} addIceCandidate g ev.
Arguments run_gate {Cand} addIceCandidate evs g.
Arguments status {Cand} id g.

(** The outcome recorded for a queued submission once it is applied. *)
Definition outcome_of {Cand : Type} (addIceCandidate : Cand -> settlement)
    (sub : nat * Cand) : nat * settlement :=
  (fst sub, addIceCandidate (snd sub)).

(** Neither [stable] nor [closed]. *)
Definition transitional (s : RTCSignalingState) : bool :=
  negb (RTCSignalingState_eqb s Stable) && negb (RTCSignalingState_eqb s Closed).

(** The two immediate rejections of the gate. *)
Definition ConnectionClosed : js_error := Error "PeerConnection object is closed".
Definition NoRemoteDescription : js_error := Error "No Remote Description".

(** Every transition stays in [closed]: the connection never reopens. *)
Definition closed_only {Cand : Type} (evs : list (gate_event Cand)) : bool :=
  forallb (fun ev => match ev with
                     | StateChange s _ => RTCSignalingState_eqb s Closed
                     | Submit _ _ => true
                     end) evs.

(** The submission number a single event adds, if any. *)
Definition step_ids {Cand : Type} (ev : gate_event Cand) : list nat :=
  match ev with Submit id _ => [id] | StateChange _ _ => [] end.

Definition submitted_ids {Cand : Type} (evs : list (gate_event Cand)) : list nat :=
  flat_map (fun ev => match ev with Submit id _ => [id] | StateChange _ _ => [] end) evs.

(* ------------------------------------------------------------------ *)
(** ** The Outbound Candidate Buffer of the [WebRtcPeer] constructor *)

(** Event names of the peer's [EventEmitter]. *)
Inductive peer_event :=
| EvIcecandidate
| EvCandidategatheringdone
| EvOther (name : string).

Definition peer_event_eqb (a b : peer_event) : bool :=
  match a, b with
  | EvIcecandidate, EvIcecandidate => true
  | EvCandidategatheringdone, EvCandidategatheringdone => true
  | EvOther x, EvOther y => String.eqb x y
  | _, _ => false
  end.

Section Outbound.

Local Open Scope list_scope.

Variable Cand : Type.

(** The emitter's listeners (event name and listener number, in
    registration order), the closure's [candidatesQueueOut] and
    [candidategatheringdone], and the calls made to listeners so far
    (listener number and argument; [None] is [null]/[undefined]). *)
Record emitter := {
  listeners : list (peer_event * nat);
  candidatesQueueOut : list (option Cand);
  candidategatheringdone : bool;
  deliveries : list (nat * option Cand)
}.

Definition listenerCount (ev : peer_event) (e : emitter) : nat :=
  length (filter (fun l => peer_event_eqb (fst l) ev) (listeners e)).

(** [this.emit(ev, arg)]: every listener of [ev], in registration order. *)
Definition emit (ev : peer_event) (arg : option Cand) (e : emitter) : emitter :=
  {| listeners := listeners e;
     candidatesQueueOut := candidatesQueueOut e;
     candidategatheringdone := candidategatheringdone e;
     deliveries := deliveries e
       ++ map (fun l => (snd l, arg))
              (filter (fun l => peer_event_eqb (fst l) ev) (listeners e)) |}.

Definition set_done (b : bool) (e : emitter) : emitter :=
  {| listeners := listeners e; candidatesQueueOut := candidatesQueueOut e;
     candidategatheringdone := b; deliveries := deliveries e |}.

Definition set_queue (q : list (option Cand)) (e : emitter) : emitter :=
  {| listeners := listeners e; candidatesQueueOut := q;
     candidategatheringdone := candidategatheringdone e; deliveries := deliveries e |}.

(** The connection's [icecandidate] listener (main.ts lines 203-221). *)
Definition on_icecandidate (candidate : option Cand) (e : emitter) : emitter :=
  if Nat.ltb 0 (listenerCount EvIcecandidate e)
     || Nat.ltb 0 (listenerCount EvCandidategatheringdone e)
  then
    let e1 :=
      match candidate with
      | Some cand => set_done false (emit EvIcecandidate (Some cand) e)
      | None =>
          if negb (candidategatheringdone e)
          then emit EvCandidategatheringdone None e else e
      end in
    set_done true e1
  else if negb (candidategatheringdone e) then
    let e1 := set_queue (candidatesQueueOut e ++ [candidate]) e in
    match candidate with
    | None => set_done true e1
    | Some _ => e1
    end
  else e.

(** The [while (candidatesQueueOut.length)] loop of the [newListener]
    handler: each entry is shifted off and given to the new listener
    [lid] when [!candidate === (event === 'candidategatheringdone')]. *)
Fixpoint drain (ev : peer_event) (lid : nat) (q : list (option Cand))
    (acc : list (nat * option Cand)) : list (nat * option Cand) :=
  match q with
  | [] => acc
  | c :: q' =>
      let is_null := match c with None => true | Some _ => false end in
      let is_done := peer_event_eqb ev EvCandidategatheringdone in
      drain ev lid q' (if Bool.eqb is_null is_done then acc ++ [(lid, c)] else acc)
  end.

(** The [newListener] handler (main.ts lines 230-240). *)
Definition on_newListener (ev : peer_event) (lid : nat) (e : emitter) : emitter :=
  match ev with
  | EvIcecandidate | EvCandidategatheringdone =>
      {| listeners := listeners e; candidatesQueueOut := [];
         candidategatheringdone := candidategatheringdone e;
         deliveries := drain ev lid (candidatesQueueOut e) (deliveries e) |}
  | EvOther _ => e
  end.

(** [this.on(ev, listener)]: [EventEmitter] emits [newListener] before it
    adds the listener. *)
Definition on (ev : peer_event) (lid : nat) (e : emitter) : emitter :=
  let e1 := on_newListener ev lid e in
  {| listeners := listeners e1 ++ [(ev, lid)];
     candidatesQueueOut := candidatesQueueOut e1;
     candidategatheringdone := candidategatheringdone e1;
     deliveries := deliveries e1 |}.

(** A peer built without [onicecandidate]/[oncandidategatheringdone]. *)
Definition emitter_init : emitter :=
  {| listeners := []; candidatesQueueOut := []; candidategatheringdone := false;
     deliveries := [] |}.

Inductive emitter_op :=
| IceCandidate (candidate : option Cand)
| Subscribe (ev : peer_event) (lid : nat).

Definition emitter_step (e : emitter) (op : emitter_op) : emitter :=
  match op with
  | IceCandidate c => on_icecandidate c e
  | Subscribe ev lid => on ev lid e
  end.

Definition run_emitter (ops : list emitter_op) (e : emitter) : emitter :=
  fold_left emitter_step ops e.

End Outbound.

Arguments listeners {Cand} e.
Arguments candidatesQueueOut {Cand} e.
Arguments candidategatheringdone {Cand} e.
Arguments deliveries {Cand} e.
Arguments listenerCount {Cand} ev e.
Arguments emit {Cand} ev arg e.
Arguments set_done {Cand} b e.
Arguments set_queue {Cand} q e.
Arguments on_icecandidate {Cand} candidate e.
Arguments drain {Cand} ev lid q acc.
Arguments on_newListener {Cand} ev lid e.
Arguments on {Cand} ev lid e.
Arguments emitter_init {Cand}.
Arguments IceCandidate {Cand} candidate.
Arguments Subscribe {Cand} ev lid.
Arguments emitter_step {Cand} e op.
Arguments run_emitter {Cand} ops e.

(** Whether a buffered entry is of the kind of event [ev]: [null] for
    [candidategatheringdone], a candidate otherwise. *)
Definition matches_event {Cand : Type} (ev : peer_event) (c : option Cand) : bool :=
  Bool.eqb (match c with None => true | Some _ => false end)
           (peer_event_eqb ev EvCandidategatheringdone).

(** The calls [emit('icecandidate', c)] makes. *)
Definition ice_calls {Cand : Type} (ls : list (peer_event * nat)) (c : Cand)
    : list (nat * option Cand) :=
  map (fun l => (snd l, Some c)) (filter (fun l => peer_event_eqb (fst l) EvIcecandidate) ls).

Definition has_subscriber {Cand : Type} (e : emitter Cand) : bool :=
  Nat.ltb 0 (listenerCount EvIcecandidate e)
  || Nat.ltb 0 (listenerCount EvCandidategatheringdone e).

(* ------------------------------------------------------------------ *)
(** ** [WebRtcPeer.dispose] *)

Inductive RTCDataChannelState := DcConnecting | DcOpen | DcClosing | DcClosed.

(** The calls [dispose] makes on the browser objects. *)
Inductive teardown_call :=
| CallDcClose
| CallTrackStop (track : nat)
| CallPcClose.

(** The peer as [dispose] sees it: the data channel's [readyState] (if
    there is a data channel), the connection's signaling state (if there
    is a connection), the local tracks (number and whether stopped), the
    calls made so far, the [logger.warn] messages, and how often the
    [_dispose] handler ran. *)
Record peer_res := {
  dc : option RTCDataChannelState;
  pc : option RTCSignalingState;
  local_tracks : list (nat * bool);
  calls : list teardown_call;
  warnings : list string;
  dispose_events : nat
}.

(** How a block of statements completes. *)
Inductive completion :=
| Normal (st : peer_res)
| Return (st : peer_res)
| Throw (e : js_error) (st : peer_res).

Definition completion_state (c : completion) : peer_res :=
  match c with Normal st | Return st | Throw _ st => st end.

Section Dispose.

Local Open Scope list_scope.

(** Whether a call on a browser object throws. *)
Variable throws : teardown_call -> bool.

Definition record_call (c : teardown_call) (st : peer_res) : peer_res :=
  {| dc := dc st; pc := pc st; local_tracks := local_tracks st;
     calls := calls st ++ [c]; warnings := warnings st;
     dispose_events := dispose_events st |}.

(** The effect of each call, as the WebRTC API defines it: [close()] on a
    data channel moves it to [closing] (the [closed] state comes later,
    asynchronously) and does nothing on a closing or closed channel;
    [stop()] ends a track; [close()] on the connection closes it and sets
    the [readyState] of each of its data channels to [closed]. *)
Definition call_effect (c : teardown_call) (st : peer_res) : peer_res :=
  match c with
  | CallDcClose =>
      {| dc := match dc st with
               | Some DcConnecting | Some DcOpen => Some DcClosing
               | d => d
               end;
         pc := pc st; local_tracks := local_tracks st; calls := calls st;
         warnings := warnings st; dispose_events := dispose_events st |}
  | CallTrackStop n =>
      {| dc := dc st; pc := pc st;
         local_tracks := map (fun t => if Nat.eqb (fst t) n then (fst t, true) else t)
                             (local_tracks st);
         calls := calls st; warnings := warnings st; dispose_events := dispose_events st |}
  | CallPcClose =>
      {| dc := match dc st with Some _ => Some DcClosed | None => None end;
         pc := match pc st with Some _ => Some Closed | None => None end;
         local_tracks := local_tracks st; calls := calls st;
         warnings := warnings st; dispose_events := dispose_events st |}
  end.

Definition do_call (c : teardown_call) (st : peer_res) : completion :=
  let st1 := record_call c st in
  if throws c then Throw (Error "call failed") st1 else Normal (call_effect c st1).

Definition seq (k1 : completion) (k2 : peer_res -> completion) : completion :=
  match k1 with
  | Normal st => k2 st
  | _ => k1
  end.

(** [getLocalStreams().forEach(stream => stream.getTracks().forEach(track => track?.stop()))] *)
Fixpoint stop_tracks (ts : list (nat * bool)) (st : peer_res) : completion :=
  match ts with
  | [] => Normal st
  | t :: ts' => seq (do_call (CallTrackStop (fst t)) st) (stop_tracks ts')
  end.

(** The body of the [try] block (main.ts lines 419-436). *)
Definition dispose_try (st : peer_res) : completion :=
  let pc_part (st1 : peer_res) : completion :=
    match pc st1 with
    | None => Normal st1
    | Some Closed => Return st1
    | Some _ => seq (stop_tracks (local_tracks st1) st1) (do_call CallPcClose)
    end in
  match dc st with
  | Some DcClosed => Return st
  | Some _ => seq (do_call CallDcClose st) pc_part
  | None => pc_part st
  end.

(** [String(err)] for a caught error; the message of a [TypeError] is
    not modelled. *)
Definition error_text (e : js_error) : string :=
  match e with
  | Error m => "Error: " ++ m
  | TypeError => "TypeError"
  end.

Definition warn (msg : string) (st : peer_res) : peer_res :=
  {| dc := dc st; pc := pc st; local_tracks := local_tracks st; calls := calls st;
     warnings := warnings st ++ [msg]; dispose_events := dispose_events st |}.

(** [this.emit('_dispose')]: the handler resets the video elements,
    removes the listeners and logs the cancellation, none of which
    throws; it is counted here. *)
Definition emit_dispose (st : peer_res) : peer_res :=
  {| dc := dc st; pc := pc st; local_tracks := local_tracks st; calls := calls st;
     warnings := warnings st; dispose_events := S (dispose_events st) |}.

(** [WebRtcPeer.dispose] (main.ts lines 414-441). *)
Definition dispose (st : peer_res) : completion :=
  let after_try :=
    match dispose_try st with
    | Throw e st1 => Normal (warn ("Exception disposing webrtc peer " ++ error_text e) st1)
    | k => k
    end in
  match after_try with
  | Normal st1 => Normal (emit_dispose st1)
  | k => k
  end.

End Dispose.

(** Browser calls that do not throw. *)
Definition no_throw : teardown_call -> bool := fun _ => false.

(* ------------------------------------------------------------------ *)
(** ** Enabling local tracks, [send] and [generateOffer] *)

Inductive track_kind := Audio | Video.

Definition track_kind_eqb (a b : track_kind) : bool :=
  match a, b with Audio, Audio | Video, Video => true | _, _ => false end.

Record LocalTrack := {
  lt_id : nat;
  lt_kind : track_kind;
  lt_enabled : bool
}.

(** The tracks of the connection's senders ([sender.track] may be
    [null]); [None] when there is no [peerConnection]. *)
Definition senders_state := option (list (option LocalTrack)).

(** [getSenders().map(sender => sender.track)], without the [null]s. *)
Definition sender_tracks (ss : list (option LocalTrack)) : list LocalTrack :=
  flat_map (fun o => match o with Some t => [t] | None => [] end) ss.

(** [getLocalStreams()] (main.ts lines 312-316): one stream holding every
    non-null sender track. *)
Definition getLocalStreams (ss : list (option LocalTrack)) : list (list LocalTrack) :=
  [sender_tracks ss].

(** Whether some sender holds a track of kind [k]. *)
Definition has_track (k : track_kind) (ss : list (option LocalTrack)) : bool :=
  existsb (fun t => track_kind_eqb (lt_kind t) k) (sender_tracks ss).

Definition tracks_of_kind (k : track_kind) (stream : list LocalTrack) : list LocalTrack :=
  filter (fun t => track_kind_eqb (lt_kind t) k) stream.

(** [track.enabled = value] on a track of kind [k]. *)
Definition set_kind (k : track_kind) (v : bool) (t : LocalTrack) : LocalTrack :=
  if track_kind_eqb (lt_kind t) k
  then {| lt_id := lt_id t; lt_kind := lt_kind t; lt_enabled := v |} else t.

(** [getEnabled(method)] (main.ts lines 523-527). *)
Definition getEnabled (k : track_kind) (pc : senders_state) : bool :=
  match pc with
  | None => false
  | Some ss => existsb (fun stream => existsb lt_enabled (tracks_of_kind k stream))
                       (getLocalStreams ss)
  end.

(** [setEnabled(method, value)] (main.ts lines 519-521): [track.enabled =
    value] on every sender track of kind [k]; the tracks are the objects
    the senders hold, so the senders see the change. Without a
    [peerConnection], [getSenders] is read on [undefined]. *)
Definition setEnabled (k : track_kind) (value : bool) (pc : senders_state)
    : js_error + senders_state :=
  match pc with
  | None => inl TypeError
  | Some ss =>
      inr (Some (map (option_map (set_kind k value)) ss))
  end.

(** [get enabled] (main.ts lines 495-497). *)
Definition enabled (pc : senders_state) : bool :=
  getEnabled Audio pc && getEnabled Video pc.

(** [set enable(value)] (main.ts lines 499-501):
    [this.audioEnabled = this.videoEnabled = value] assigns
    [videoEnabled] first. *)
Definition enable (value : bool) (pc : senders_state) : js_error + senders_state :=
  match setEnabled Video value pc with
  | inl e => inl e
  | inr pc1 => setEnabled Audio value pc1
  end.

(** [send(data)] (main.ts lines 345-351): the warning logged and the data
    handed to [dataChannel.send]. *)
Definition send (dataChannel : option RTCDataChannelState) (data : string)
    : Log * option string :=
  match dataChannel with
  | Some DcOpen => ([], Some data)
  | _ => (["Trying to send data over a non-existing or closed data channel"], None)
  end.

Inductive WebRtcPeerMode := Recvonly | Sendonly | Sendrecv.

Inductive RTCRtpTransceiverDirection := DirSendrecv | DirSendonly | DirRecvonly | DirInactive.

Record Transceiver := {
  tr_kind : track_kind;
  direction : RTCRtpTransceiverDirection
}.

(** The connection with its transceivers. *)
Record OfferConnection := {
  conn : RTCPeerConnection;
  transceivers : list Transceiver
}.

(** The truthiness of [mediaConstraints?.audio] and
    [mediaConstraints?.video]; [None] when [mediaConstraints] is unset. *)
Definition constraints := option (bool * bool).

Definition use_audio (c : constraints) : bool :=
  match c with Some (a, _) => a | None => false end.
Definition use_video (c : constraints) : bool :=
  match c with Some (_, v) => v | None => false end.

(** The mode-dependent set-up at the start of [generateOffer] (main.ts
    lines 276-300). *)
Definition prepareTransceivers (mode : WebRtcPeerMode) (mediaConstraints : constraints)
    (ts : list Transceiver) : list Transceiver :=
  match mode with
  | Recvonly =>
      ts ++ (if use_audio mediaConstraints
             then [{| tr_kind := Audio; direction := DirRecvonly |}] else [])
         ++ (if use_video mediaConstraints
             then [{| tr_kind := Video; direction := DirRecvonly |}] else [])
  | Sendonly =>
      map (fun t => {| tr_kind := tr_kind t; direction := DirSendonly |}) ts
  | Sendrecv => ts
  end.

Section GenerateOffer.

Variable createOffer : OfferConnection -> js_error + RTCSessionDescription.
Variable setLocalDescription :
  OfferConnection -> RTCSessionDescription -> js_error + OfferConnection.
Variable simulcast : bool.
Variable videoStream : option MediaStream.

(** [WebRtcPeer.generateOffer] (main.ts lines 275-309). *)
Definition generateOffer (mode : WebRtcPeerMode) (mediaConstraints : constraints)
    (pc : OfferConnection) : (js_error + string) * OfferConnection :=
  let pc1 := {| conn := conn pc;
                transceivers := prepareTransceivers mode mediaConstraints (transceivers pc) |} in
  match createOffer pc1 with
  | inl e => (inl e, pc1)
  | inr sdp =>
      match mangleSdpToAddSimulcast simulcast videoStream sdp with
      | inl e => (inl e, pc1)
      | inr offer =>
          match setLocalDescription pc1 offer with
          | inl e => (inl e, pc1)
          | inr pc2 =>
              match localDescription (conn pc2) with
              | None => (inl (Error "no local description"), pc2)
              | Some ld => (inr (sd_sdp ld), pc2)
              end
          end
      end
  end.

End GenerateOffer.

(** A gate just returned by [bufferizeCandidates]: its queue is empty. *)
Definition fresh_gate {Cand : Type} (s : RTCSignalingState) (r : bool) : gate Cand :=
  {| sig := s; remote_set := r; candidatesQueue := []; applied := []; settled := [] |}.

(** The submission numbers that are settled or still queued. *)
Definition tracked_ids {Cand : Type} (g : gate Cand) : list nat :=
  map fst (settled g) ++ map fst (candidatesQueue g).


(* ------------------------------------------------------------------ *)
(** ** [processAnswer] and [start] *)

Section Answer.

Variable setRemoteDescription :
  RTCPeerConnection -> RTCSessionDescription -> js_error + RTCPeerConnection.

(** [WebRtcPeer.processAnswer] (main.ts lines 358-370). [setRemoteVideo]
    only drives the video element and is left out. *)
Definition processAnswer (pc : RTCPeerConnection) (sdp : string)
    : (js_error + unit) * RTCPeerConnection :=
  let answer := {| sd_type := SdpAnswer; sd_sdp := sdp |} in
  if RTCSignalingState_eqb (signalingState pc) Closed
  then (inl (Error "PeerConnection is closed"), pc)
  else
    match setRemoteDescription pc answer with
    | inl e => (inl e, pc)
    | inr pc1 => (inr tt, pc1)
    end.

End Answer.

(** The browser's [setLocalDescription] for an offer, as the WebRTC API
    defines it: a local offer is accepted in [stable] and moves the
    connection to [have-local-offer]. *)
Definition browser_setLocalDescription (p : OfferConnection) (d : RTCSessionDescription)
    : js_error + OfferConnection :=
  match signalingState (conn p), sd_type d with
  | Stable, SdpOffer =>
      inr {| conn := {| signalingState := HaveLocalOffer; localDescription := Some d;
                        remoteDescription := remoteDescription (conn p) |};
             transceivers := transceivers p |}
  | _, _ => inl (Error "InvalidStateError")
  end.

(** [MEDIA_CONSTRAINTS] (main.ts lines 8-14): audio and video requested. *)
Definition MEDIA_CONSTRAINTS : constraints := Some (true, true).

(** A media stream with the numbers of its tracks ([getTracks()]). *)
Record LocalStream := {
  ls_id : string;
  ls_tracks : list nat
}.

(** The media requests [start] makes to the browser. *)
Inductive media_request :=
| ReqUserMedia (c : constraints)
| ReqDisplayMedia.

(** The peer as [start] sees it; [senders] lists the [addTrack(track,
    stream)] calls made, as track and stream id. *)
Record StartPeer := {
  mode : WebRtcPeerMode;
  videoStream : option LocalStream;
  audioStream : option LocalStream;
  sendSource : string;
  mediaConstraints : constraints;
  signaling : RTCSignalingState;
  requests : list media_request;
  senders : list (nat * string)
}.

Definition quote : string := String (ascii_of_nat 34) EmptyString.

Definition closed_start_message : string :=
  "The peer connection object is in " ++ quote ++ "closed" ++ quote
  ++ " state. This is most likely due to an invocation of the dispose method"
  ++ " before accepting in the dialogue".

Definition with_request (r : media_request) (p : StartPeer) : StartPeer :=
  {| mode := mode p; videoStream := videoStream p; audioStream := audioStream p;
     sendSource := sendSource p; mediaConstraints := mediaConstraints p;
     signaling := signaling p; requests := requests p ++ [r]; senders := senders p |}.

Definition with_videoStream (s : LocalStream) (p : StartPeer) : StartPeer :=
  {| mode := mode p; videoStream := Some s; audioStream := audioStream p;
     sendSource := sendSource p; mediaConstraints := mediaConstraints p;
     signaling := signaling p; requests := requests p; senders := senders p |}.

Definition with_senders (l : list (nat * string)) (p : StartPeer) : StartPeer :=
  {| mode := mode p; videoStream := videoStream p; audioStream := audioStream p;
     sendSource := sendSource p; mediaConstraints := mediaConstraints p;
     signaling := signaling p; requests := requests p; senders := l |}.

(** [tracks.forEach(track => pc.addTrack(track, stream))] for the stream
    numbered [sid]: [addTrack] throws an [InvalidAccessError] for a track
    that already has a sender, which ends the loop. *)
Fixpoint add_track_list (sid : string) (ts : list nat) (p : StartPeer)
    : (js_error * StartPeer) + StartPeer :=
  match ts with
  | [] => inr p
  | t :: ts' =>
      if existsb (Nat.eqb t) (map fst (senders p))
      then inl (Error "InvalidAccessError", p)
      else add_track_list sid ts' (with_senders (senders p ++ [(t, sid)]) p)
  end.

(** [stream?.getTracks().forEach(track => pc.addTrack(track, stream))] *)
Definition add_tracks (s : option LocalStream) (p : StartPeer)
    : (js_error * StartPeer) + StartPeer :=
  match s with
  | None => inr p
  | Some s => add_track_list (ls_id s) (ls_tracks s) p
  end.

Definition WebRtcPeerMode_eqb (a b : WebRtcPeerMode) : bool :=
  match a, b with
  | Recvonly, Recvonly | Sendonly, Sendonly | Sendrecv, Sendrecv => true
  | _, _ => false
  end.

(** The [addTrack] calls for the tracks of a stream, if any. *)
Definition stream_senders (s : option LocalStream) : list (nat * string) :=
  match s with
  | None => []
  | Some s => map (fun t => (t, ls_id s)) (ls_tracks s)
  end.

Section Start.

(** [navigator.mediaDevices.getUserMedia] and [getDisplayMedia]; the
    latter may yield no stream. *)
Variable getUserMedia : constraints -> js_error + LocalStream.
Variable getDisplayMedia : js_error + option LocalStream.

(** [WebRtcPeer.getScreenConstraints] (main.ts lines 530-534). *)
Definition getScreenConstraints : js_error + LocalStream :=
  match getDisplayMedia with
  | inl e => inl e
  | inr None => inl (Error "This library is not enabled for screen sharing")
  | inr (Some s) => inr s
  end.

(** The first statement of [start]: the media acquisition (the request
    is made whether it succeeds or not), or [sleep()]. *)
Definition acquire (p : StartPeer) : (js_error * StartPeer) + StartPeer :=
  if negb (WebRtcPeerMode_eqb (mode p) Recvonly)
     && match videoStream p, audioStream p with None, None => true | _, _ => false end
  then
    if String.eqb (sendSource p) "webcam" then
      let c := match mediaConstraints p with Some c => Some c | None => MEDIA_CONSTRAINTS end in
      let p1 := with_request (ReqUserMedia c) p in
      match getUserMedia c with
      | inl e => inl (e, p1)
      | inr s => inr (with_videoStream s p1)
      end
    else
      let p1 := with_request ReqDisplayMedia p in
      match getScreenConstraints with
      | inl e => inl (e, p1)
      | inr s => inr (with_videoStream s p1)
      end
  else inr p.

(** [WebRtcPeer.start] (main.ts lines 471-493): the outcome and the peer
    afterwards. [showLocalVideo] only drives the video element. *)
Definition start (p : StartPeer) : (js_error + unit) * StartPeer :=
  match acquire p with
  | inl (e, p1) => (inl e, p1)
  | inr p1 =>
      if RTCSignalingState_eqb (signaling p1) Closed
      then (inl (Error closed_start_message), p1)
      else
        match add_tracks (videoStream p1) p1 with
        | inl (e, p2) => (inl e, p2)
        | inr p2 =>
            match add_tracks (audioStream p2) p2 with
            | inl (e, p3) => (inl e, p3)
            | inr p3 => (inr tt, p3)
            end
        end
  end.

End Start.
(* ------------------------------------------------------------------ *)
(** ** Concrete inputs *)

Definition gate_stalled : gate nat :=
  {| sig := HaveLocalOffer; remote_set := false; candidatesQueue := [];
     applied := []; settled := [] |}.

Definition reject_odd (c : nat) : settlement :=
  if Nat.odd c then Rejected (Error "OperationError") else Resolved.

Definition stream0 : MediaStream :=
  {| stream_id := "stream0"; video_tracks := [{| track_id := "track0" |}] |}.

(** A peer with an open data channel, a stable connection and two live
    local tracks. *)
Definition peer_open : peer_res :=
  {| dc := Some DcOpen; pc := Some Stable; local_tracks := [(0, false); (1, false)];
     calls := []; warnings := []; dispose_events := 0 |}.

(** A peer whose data channel is closed while its connection is stable. *)
Definition peer_dc_closed : peer_res :=
  {| dc := Some DcClosed; pc := Some Stable; local_tracks := [(0, false)];
     calls := []; warnings := []; dispose_events := 0 |}.

(** An audio track, a sender without track and a video track, all enabled. *)
Definition senders_av : list (option LocalTrack) :=
  [Some {| lt_id := 0; lt_kind := Audio; lt_enabled := true |}; None;
   Some {| lt_id := 1; lt_kind := Video; lt_enabled := true |}].

(** A peer emitter with one [icecandidate] listener (0) and one
    [candidategatheringdone] listener (1), as the constructor registers
    [onicecandidate] and [oncandidategatheringdone]. *)
Definition emitter_two_listeners : emitter nat :=
  {| listeners := [(EvIcecandidate, 0); (EvCandidategatheringdone, 1)];
     candidatesQueueOut := []; candidategatheringdone := false; deliveries := [] |}.

(** A [createOffer] that always yields the same offer, and a
    [setLocalDescription] that stores the description it is given. *)
Definition offer_v0 (_ : OfferConnection) : js_error + RTCSessionDescription :=
  inr {| sd_type := SdpOffer; sd_sdp := "v=0" |}.

(** A connection in [stable] with one video transceiver. *)
Definition offer_pc_stable : OfferConnection :=
  {| conn := {| signalingState := Stable; localDescription := None;
                remoteDescription := None |};
     transceivers := [{| tr_kind := Video; direction := DirSendrecv |}] |}.

(** A webcam stream with two tracks, a [getUserMedia] that yields it and
    a [getDisplayMedia] that yields no stream. *)
Definition stream_cam : LocalStream := {| ls_id := "cam"; ls_tracks := [0; 1] |}.

Definition cam_ok (_ : constraints) : js_error + LocalStream := inr stream_cam.

Definition no_display : js_error + option LocalStream := inr None.

(** A [sendonly] peer without streams, on a connection in state [s],
    sending from [source]. *)
Definition sendonly_peer (s : RTCSignalingState) (source : string) : StartPeer :=
  {| mode := Sendonly; videoStream := None; audioStream := None; sendSource := source;
     mediaConstraints := None; signaling := s; requests := []; senders := [] |}.



(* ================================================================== *)
(** * Properties *)

(* ------------------------------------------------------------------ *)
(** ** String lemmas *)

Lemma starts_with_take (p s : string) (k : nat) :
  starts_with p (take k s) = true -> starts_with p s = true.
Proof.
  revert s k; induction p as [|a p IH]; intros s k H; [reflexivity|].
  destruct k as [|k]; [discriminate|].
  destruct s as [|b s]; [discriminate|].
  simpl in *. apply andb_prop in H as [Hab Hp].
  rewrite Hab. simpl. eapply IH; eauto.
Qed.

Lemma index_of_empty (p : string) :
  p <> EmptyString -> index_of p EmptyString = None.
Proof. destruct p; [congruence|reflexivity]. Qed.

(** Cutting [s] at the first occurrence of [p] leaves no occurrence. *)
Lemma index_of_take_first (p s : string) (n : nat) :
  p <> EmptyString -> index_of p s = Some n -> index_of p (take n s) = None.
Proof.
  intros Hp. revert n; induction s as [|a s IH]; intros n H.
  - destruct n; apply index_of_empty; exact Hp.
  - simpl in H. destruct (starts_with p (String a s)) eqn:E.
    + inversion H; subst. apply index_of_empty; exact Hp.
    + destruct (index_of p s) as [m|] eqn:Es; simpl in H; [|discriminate].
      inversion H; subst n. simpl.
      destruct (starts_with p (String a (take m s))) eqn:E2.
      * exfalso.
        assert (starts_with p (take (S m) (String a s)) = true) as E3 by exact E2.
        apply starts_with_take in E3. congruence.
      * rewrite (IH m eq_refl). reflexivity.
Qed.

Lemma take_is_prefix (n : nat) (s : string) : is_prefix (take n s) s.
Proof.
  revert s; induction n as [|n IH]; intros s.
  - exists s. reflexivity.
  - destruct s as [|c s].
    + exists EmptyString. reflexivity.
    + destruct (IH s) as [r Hr]. exists r. simpl. f_equal. exact Hr.
Qed.

Lemma take_length_le (n : nat) (s : string) :
  (n <= String.length s)%nat -> String.length (take n s) = n.
Proof.
  revert s; induction n as [|n IH]; intros s H; [reflexivity|].
  destruct s as [|c s]; simpl in *; [lia|].
  f_equal. apply IH. lia.
Qed.

Lemma index_of_bound (p s : string) (n : nat) :
  index_of p s = Some n -> (n <= String.length s)%nat.
Proof.
  revert n; induction s as [|a s IH]; intros n H; simpl in H.
  - destruct (starts_with p EmptyString); inversion H; subst; simpl; lia.
  - destruct (starts_with p (String a s)); [inversion H; subst; simpl; lia|].
    destruct (index_of p s) as [m|] eqn:E; simpl in H; inversion H; subst.
    simpl. specialize (IH m eq_refl). lia.
Qed.

Lemma append_empty_r (s : string) : s ++ EmptyString = s.
Proof. induction s as [|c s IH]; simpl; [reflexivity|rewrite IH; reflexivity]. Qed.

Lemma FID_MARKER_nonempty : FID_MARKER <> EmptyString.
Proof. discriminate. Qed.

(* ------------------------------------------------------------------ *)
(** ** [removeFIDFromOffer] *)

Lemma removeFID_cases (s : string) :
  (exists n, index_of FID_MARKER s = Some (S n)
             /\ removeFIDFromOffer s = take (S n) s)
  \/ (index_of FID_MARKER s = Some 0 /\ removeFIDFromOffer s = s)
  \/ (index_of FID_MARKER s = None /\ removeFIDFromOffer s = s).
Proof.
  unfold removeFIDFromOffer, indexOf, slice0.
  destruct (index_of FID_MARKER s) as [[|n]|] eqn:E.
  - right; left. split; reflexivity.
  - left. exists n. split; [reflexivity|].
    replace (Z.of_nat (S n) >? 0)%Z with true by (symmetry; apply Z.gtb_lt; lia).
    rewrite Nat2Z.id. reflexivity.
  - right; right. split; reflexivity.
Qed.

(** When the marker occurs at a positive offset, the result is the text
    cut exactly at that offset. *)
Lemma removeFID_truncates_pos (s : string) (n : nat) :
  index_of FID_MARKER s = Some n -> (0 < n)%nat ->
  removeFIDFromOffer s = take n s /\ String.length (removeFIDFromOffer s) = n.
Proof.
  intros E Hn. destruct (removeFID_cases s) as [[m [E1 R]]|[[E1 R]|[E1 R]]];
    rewrite E in E1; inversion E1; subst; try lia.
  split; [exact R|]. rewrite R. apply take_length_le.
  eapply index_of_bound; exact E.
Qed.

Lemma removeFID_absent (s : string) :
  index_of FID_MARKER s = None -> removeFIDFromOffer s = s.
Proof.
  intros E. destruct (removeFID_cases s) as [[m [E1 R]]|[[E1 R]|[E1 R]]];
    rewrite E in E1; try discriminate; exact R.
Qed.

(** C5 (code_bug): the spec truncates at the first occurrence of the
    marker, wherever it is. The guard [n > 0] of the code treats an
    occurrence at offset 0 like an absent marker: on
    ["a=ssrc-group:FID 1 2\nrest"] [indexOf] is 0 and the text comes back
    whole, where the truncation at offset 0 is the empty string. *)
Theorem removeFID_marker_at_zero_kept :
  let s := "a=ssrc-group:FID 1 2" ++ String (ascii_of_nat 10) "rest" in
  indexOf s FID_MARKER = 0%Z
  /\ slice0 s (indexOf s FID_MARKER) = EmptyString
  /\ removeFIDFromOffer s = s
  /\ removeFIDFromOffer s <> slice0 s (indexOf s FID_MARKER).
Proof. vm_compute. repeat split; discriminate. Qed.

(** C10: the result of [removeFIDFromOffer] is always a prefix of its
    input, and the function is idempotent, wherever the marker occurs
    (offset 0 included) or when it is absent. *)
Theorem removeFID_prefix_idempotent (s : string) :
  is_prefix (removeFIDFromOffer s) s
  /\ removeFIDFromOffer (removeFIDFromOffer s) = removeFIDFromOffer s.
Proof.
  destruct (removeFID_cases s) as [[n [E R]]|[[E R]|[E R]]]; rewrite R.
  - split; [apply take_is_prefix|].
    apply removeFID_absent. apply index_of_take_first;
      [exact FID_MARKER_nonempty | exact E].
  - split; [exists EmptyString; rewrite append_empty_r; reflexivity | exact R].
  - split; [exists EmptyString; rewrite append_empty_r; reflexivity | exact R].
Qed.

(* ------------------------------------------------------------------ *)
(** ** Line splitting *)

Lemma append_assoc_s (a b c : string) : (a ++ b) ++ c = a ++ (b ++ c).
Proof. induction a as [|x a IH]; simpl; [reflexivity|rewrite IH; reflexivity]. Qed.

Lemma prepend_first_prepend_first (a b : string) (ls : list string) :
  prepend_first a (prepend_first b ls) = prepend_first (a ++ b) ls.
Proof. destruct ls; simpl; [reflexivity|rewrite append_assoc_s; reflexivity]. Qed.

Lemma lines_app (a b : string) :
  has_nl a = false -> lines (a ++ b) = prepend_first a (lines b).
Proof.
  induction a as [|c a IH]; intros H.
  - simpl. destruct (lines b) eqn:E; simpl; [|reflexivity].
    (* [lines] never returns the empty list *)
    destruct b; simpl in E; [discriminate|].
    destruct (Ascii.eqb a nl_char); [discriminate|destruct (lines b); discriminate].
  - simpl in H. apply orb_false_elim in H as [Hc Ha].
    simpl. rewrite Hc, IH by exact Ha.
    rewrite prepend_first_prepend_first. reflexivity.
Qed.

Lemma lines_nl (b : string) : lines (nl ++ b) = EmptyString :: lines b.
Proof. reflexivity. Qed.

Lemma lines_no_nl (a : string) : has_nl a = false -> lines a = [a].
Proof.
  intros H. rewrite <- (append_empty_r a), lines_app by exact H.
  reflexivity.
Qed.

Lemma index_of_here (p s : string) :
  starts_with p s = true -> index_of p s = Some 0.
Proof. intros H. destruct s; simpl; rewrite H; reflexivity. Qed.

Lemma starts_with_app (x b : string) : starts_with x (x ++ b) = true.
Proof.
  induction x as [|e x IH]; simpl; [reflexivity|].
  rewrite Ascii.eqb_refl, IH. reflexivity.
Qed.

Lemma contains_middle (x a b : string) : contains x (a ++ x ++ b) = true.
Proof.
  unfold contains. induction a as [|c a IH]; simpl.
  - rewrite index_of_here by apply starts_with_app. reflexivity.
  - destruct (starts_with x (String c (a ++ x ++ b))); [reflexivity|].
    destruct (index_of x (a ++ x ++ b)); [reflexivity|discriminate].
Qed.

(** Splits a text built by [++] into its lines, given which pieces
    carry no line break. *)
Ltac split_lines :=
  repeat first
    [ rewrite lines_nl
    | rewrite lines_app by (first [reflexivity | assumption])
    | rewrite (lines_no_nl _) by assumption ];
  cbn [prepend_first].

(* ------------------------------------------------------------------ *)
(** ** [getSimulcastInfo] and [mangleSdpToAddSimulcast] *)

(** C7: with no video track the block is empty (only the warning is
    logged), so appending it leaves the description unchanged. With a
    video track [t] (and ids free of line breaks, so that they stay inside
    their lines) the block has one grouping directive
    [a=ssrc-group:SIM 1 2 3], its [a=ssrc:] lines carry the ids 1, 2 and 3
    (four lines each, nothing else), and each layer has an [msid] line
    naming the stream id and the id of the first video track. *)
Theorem getSimulcastInfo_block (vs : MediaStream) (d : string) :
  (video_tracks vs = [] ->
     fst (getSimulcastInfo vs) = ["No video tracks available in the video stream"]
     /\ appendSimulcastBlock d vs = d)
  /\ (forall t ts, video_tracks vs = t :: ts ->
        has_nl (stream_id vs) = false -> has_nl (track_id t) = false ->
        let ls := lines (snd (getSimulcastInfo vs)) in
        fst (getSimulcastInfo vs) = []
        /\ filter is_group_line ls = ["a=ssrc-group:SIM 1 2 3"]
        /\ map ssrc_id (filter is_ssrc_line ls)
           = ["1"; "1"; "1"; "1"; "2"; "2"; "2"; "2"; "3"; "3"; "3"; "3"]
        /\ (forall k, In k ["1"; "2"; "3"] ->
              In ("a=ssrc:" ++ k ++ " msid:" ++ stream_id vs ++ " " ++ track_id t ++ ",") ls)).
Proof.
  split.
  - intros Hv. unfold appendSimulcastBlock, getSimulcastInfo. rewrite Hv.
    split; [reflexivity|apply append_empty_r].
  - intros t ts Hv Hs Ht. unfold getSimulcastInfo. rewrite Hv. cbn [fst snd].
    split_lines.
    split; [reflexivity|].
    split; [cbn; reflexivity|].
    split; [cbn; reflexivity|].
    intros k Hk. destruct Hk as [<-|[<-|[<-|[]]]];
      repeat (first [left; reflexivity | right]).
Qed.

(** C8: without the simulcast flag the description is returned as it is;
    with it, a description that comes back has the type tag of the input
    and the mangled text as payload. The only other outcome is the
    [TypeError] thrown when the peer has no [videoStream]. *)
Theorem mangle_keeps_type (videoStream : option MediaStream) (d : RTCSessionDescription) :
  mangleSdpToAddSimulcast false videoStream d = inr d
  /\ match mangleSdpToAddSimulcast true videoStream d with
     | inr d' => sd_type d' = sd_type d
                 /\ exists vs, videoStream = Some vs
                    /\ sd_sdp d' = removeFIDFromOffer (sd_sdp d) ++ snd (getSimulcastInfo vs)
     | inl e => videoStream = None /\ e = TypeError
     end.
Proof.
  split; [reflexivity|].
  destruct videoStream as [vs|]; simpl; [|split; reflexivity].
  split; [reflexivity|]. exists vs. split; reflexivity.
Qed.

(* ------------------------------------------------------------------ *)
(** ** [processOffer] *)

(** On a closed connection [processOffer] rejects and leaves the
    connection as it was. *)
Lemma processOffer_closed setRD cA simulcast vs (pc : RTCPeerConnection) (sdp : string) :
  signalingState pc = Closed ->
  processOffer setRD cA simulcast vs pc sdp = (inl (Error "PeerConnection is closed"), pc).
Proof. intros H. unfold processOffer. rewrite H. reflexivity. Qed.

(** [processOffer] never writes the local description: the connection it
    leaves has the local description that [setRemoteDescription] left. *)
Lemma processOffer_local_description setRD cA simulcast vs
    (pc : RTCPeerConnection) (sdp : string) :
  localDescription (snd (processOffer setRD cA simulcast vs pc sdp))
  = match setRD pc {| sd_type := SdpOffer; sd_sdp := sdp |} with
    | inr pc1 => if RTCSignalingState_eqb (signalingState pc) Closed
                 then localDescription pc else localDescription pc1
    | inl _ => localDescription pc
    end.
Proof.
  unfold processOffer.
  destruct (RTCSignalingState_eqb (signalingState pc) Closed);
    destruct (setRD pc _) as [e|pc1]; try reflexivity.
  destruct (cA pc1) as [e|a]; [reflexivity|].
  destruct (mangleSdpToAddSimulcast simulcast vs a); [reflexivity|].
  destruct (localDescription pc1) eqn:E; simpl; congruence.
Qed.

(** C1 (code_bug): on a fresh connection in [stable], with the browser
    accepting the offer and producing the answer ["v=0 answer"],
    [processOffer "v=0 offer"] does not set the answer as local
    description and does not return it: the connection is left in
    [have-remote-offer] without a local description and the promise
    rejects with ["no local description"]. *)
Theorem processOffer_answer_not_set :
  let pc0 := {| signalingState := Stable; localDescription := None;
                remoteDescription := None |} in
  processOffer browser_setRemoteDescription (browser_createAnswer "v=0 answer")
    false None pc0 "v=0 offer"
  = (inl (Error "no local description"),
     {| signalingState := HaveRemoteOffer; localDescription := None;
        remoteDescription := Some {| sd_type := SdpOffer; sd_sdp := "v=0 offer" |} |}).
Proof. reflexivity. Qed.

(* ------------------------------------------------------------------ *)
(** ** The Signaling Gate *)

Open Scope list_scope.

Section GateProofs.

Variable Cand : Type.
Variable addIceCandidate : Cand -> settlement.


(** Applying a list of queued submissions, one after the other. *)
Lemma fold_apply (q : list (nat * Cand)) (g : gate Cand) :
  let g' := fold_left (apply_candidate addIceCandidate) q g in
  sig g' = sig g /\ remote_set g' = remote_set g
  /\ candidatesQueue g' = candidatesQueue g
  /\ applied g' = applied g ++ map snd q
  /\ settled g' = settled g ++ map (outcome_of addIceCandidate) q.
Proof.
  revert g; induction q as [|[id c] q IH]; intros g; simpl.
  - rewrite !app_nil_r. repeat split; reflexivity.
  - destruct (IH (apply_candidate addIceCandidate g (id, c))) as (H1 & H2 & H3 & H4 & H5).
    simpl in *. rewrite H1, H2, H3, H4, H5, <- !app_assoc.
    repeat split; reflexivity.
Qed.

(** Every transition into [stable] applies the whole queue in order,
    settles each submission with its own outcome and empties the queue. *)
Lemma state_change_stable (r : bool) (g : gate Cand) :
  let g' := state_change addIceCandidate Stable r g in
  sig g' = Stable /\ remote_set g' = r /\ candidatesQueue g' = []
  /\ applied g' = applied g ++ map snd (candidatesQueue g)
  /\ settled g' = settled g ++ map (outcome_of addIceCandidate) (candidatesQueue g).
Proof.
  unfold state_change, on_signalingstatechange. simpl.
  match goal with |- context [fold_left _ _ ?g0] =>
    destruct (fold_apply (candidatesQueue g) g0) as (H1 & H2 & H3 & H4 & H5) end.
  simpl in *. unfold with_queue. simpl. rewrite H1, H2, H4, H5.
  repeat split; reflexivity.
Qed.

(** Any other transition changes nothing but the state. *)
Lemma state_change_other (s : RTCSignalingState) (r : bool) (g : gate Cand) :
  s <> Stable ->
  state_change addIceCandidate s r g =
  {| sig := s; remote_set := r; candidatesQueue := candidatesQueue g;
     applied := applied g; settled := settled g |}.
Proof.
  intros Hs. unfold state_change, on_signalingstatechange. simpl.
  destruct s; try reflexivity; congruence.
Qed.

(** Submissions in a transitional state only grow the queue. *)
Lemma submits_transitional (subs : list (nat * Cand)) (g : gate Cand) :
  transitional (sig g) = true ->
  let g' := run_gate addIceCandidate (map (fun p => Submit (fst p) (snd p)) subs) g in
  sig g' = sig g /\ remote_set g' = remote_set g
  /\ candidatesQueue g' = candidatesQueue g ++ subs
  /\ applied g' = applied g /\ settled g' = settled g.
Proof.
  revert g; induction subs as [|[id c] subs IH]; intros g Ht; cbv zeta.
  - simpl. rewrite app_nil_r. repeat split; reflexivity.
  - assert (Hg : submit addIceCandidate id c g = with_queue g (candidatesQueue g ++ [(id, c)])).
    { unfold submit. destruct (sig g); try discriminate; reflexivity. }
    unfold run_gate. cbn [map fold_left gate_step fst snd]. rewrite Hg.
    destruct (IH (with_queue g (candidatesQueue g ++ [(id, c)])) Ht)
      as (H1 & H2 & H3 & H4 & H5).
    unfold run_gate in *. rewrite H1, H2, H3, H4, H5. simpl.
    rewrite <- app_assoc. repeat split; reflexivity.
Qed.

End GateProofs.

(** C2: submissions made while the connection is in a transitional state
    are queued and stay pending; the next transition into [stable]
    applies all queued submissions in submission order, settles each with
    the outcome of its own [addIceCandidate] (a failure does not stop the
    others) and empties the queue, so a later transition applies none of
    them again. *)
Theorem gate_flush_fifo (Cand : Type) (addIceCandidate : Cand -> settlement)
    (g : gate Cand) (subs : list (nat * Cand)) (r : bool) :
  transitional (sig g) = true ->
  let g1 := run_gate addIceCandidate (map (fun p => Submit (fst p) (snd p)) subs) g in
  let g2 := state_change addIceCandidate Stable r g1 in
  candidatesQueue g1 = candidatesQueue g ++ subs
  /\ applied g1 = applied g /\ settled g1 = settled g
  /\ applied g2 = applied g ++ map snd (candidatesQueue g ++ subs)
  /\ settled g2 = settled g
                   ++ map (outcome_of addIceCandidate) (candidatesQueue g ++ subs)
  /\ candidatesQueue g2 = []
  /\ (forall s r', applied (state_change addIceCandidate s r' g2) = applied g2
                   /\ settled (state_change addIceCandidate s r' g2) = settled g2).
Proof.
  intros Ht. cbv zeta.
  destruct (submits_transitional Cand addIceCandidate subs g Ht)
    as (H1 & H2 & H3 & H4 & H5).
  set (g1 := run_gate addIceCandidate _ g) in *.
  destruct (state_change_stable Cand addIceCandidate r g1) as (K1 & K2 & K3 & K4 & K5).
  set (g2 := state_change addIceCandidate Stable r g1) in *.
  rewrite H3, H4 in K4. rewrite H3, H5 in K5.
  split; [exact H3|]. split; [exact H4|]. split; [exact H5|].
  split; [exact K4|]. split; [exact K5|]. split; [exact K3|].
  intros s r'. destruct (RTCSignalingState_eqb s Stable) eqn:Es.
  - destruct s; try discriminate.
    destruct (state_change_stable Cand addIceCandidate r' g2) as (_ & _ & _ & L4 & L5).
    rewrite L4, L5, K3. simpl. rewrite !app_nil_r. split; reflexivity.
  - rewrite state_change_other by (intros ->; discriminate). split; reflexivity.
Qed.

(** C4: a submission on a closed connection is rejected at once with the
    closed-connection error and leaves the queue alone; on a stable
    connection without a remote description it is rejected at once with
    the no-remote-description error; on a stable connection with one the
    candidate is applied now and the promise takes the outcome of
    [addIceCandidate]. *)
Theorem gate_submit_cases (Cand : Type) (addIceCandidate : Cand -> settlement)
    (g : gate Cand) (id : nat) (c : Cand) :
  let g' := submit addIceCandidate id c g in
  (sig g = Closed ->
     candidatesQueue g' = candidatesQueue g /\ applied g' = applied g
     /\ settled g' = settled g ++ [(id, Rejected ConnectionClosed)])
  /\ (sig g = Stable -> remote_set g = false ->
     candidatesQueue g' = candidatesQueue g /\ applied g' = applied g
     /\ settled g' = settled g ++ [(id, Rejected NoRemoteDescription)])
  /\ (sig g = Stable -> remote_set g = true ->
     candidatesQueue g' = candidatesQueue g /\ applied g' = applied g ++ [c]
     /\ settled g' = settled g ++ [(id, addIceCandidate c)]).
Proof.
  cbv zeta. unfold submit.
  split; [|split].
  - intros H. rewrite H. repeat split; reflexivity.
  - intros H Hr. rewrite H, Hr. repeat split; reflexivity.
  - intros H Hr. rewrite H, Hr. repeat split; reflexivity.
Qed.

(** C3 (counterexample): a candidate submitted in [have-local-offer] is
    queued; when the connection then closes its promise is neither
    resolved nor rejected and it stays in the queue, while a submission
    made after the close is rejected. *)
Lemma gate_close_leaves_pending :
  let g0 := {| sig := HaveLocalOffer; remote_set := false; candidatesQueue := [];
               applied := []; settled := [] |} in
  let g := run_gate (fun _ : nat => Resolved)
             [Submit 0 7; StateChange Closed true; Submit 1 8] g0 in
  status 0 g = None /\ candidatesQueue g = [(0, 7)]
  /\ status 1 g = Some (Rejected ConnectionClosed).
Proof. vm_compute. repeat split. Qed.

(** Once the connection is closed, and while it stays closed, the queue
    keeps its entries, none of them is applied or settled, and each new
    submission is rejected at once with the closed-connection error. *)
Lemma closed_run_keeps_queue (Cand : Type) (addIceCandidate : Cand -> settlement)
    (g : gate Cand) (evs : list (gate_event Cand)) :
  sig g = Closed -> closed_only evs = true ->
  let g' := run_gate addIceCandidate evs g in
  sig g' = Closed /\ candidatesQueue g' = candidatesQueue g /\ applied g' = applied g
  /\ settled g' = settled g ++ map (fun id => (id, Rejected ConnectionClosed)) (submitted_ids evs).
Proof.
  revert g; induction evs as [|ev evs IH]; intros g Hg Hc; cbv zeta.
  - simpl. rewrite app_nil_r. repeat split; assumption || reflexivity.
  - simpl in Hc. apply andb_prop in Hc as [He Hc].
    unfold run_gate. cbn [fold_left].
    destruct ev as [id c|s r].
    + assert (E : gate_step addIceCandidate g (Submit id c)
                  = settle id (Rejected ConnectionClosed) g)
        by (simpl; unfold submit; rewrite Hg; reflexivity).
      rewrite E. destruct (IH (settle id (Rejected ConnectionClosed) g) Hg Hc) as (H1 & H2 & H3 & H4).
      unfold run_gate in *. rewrite H1, H2, H3, H4. simpl.
      rewrite <- app_assoc. repeat split; reflexivity.
    + destruct s; try discriminate.
      assert (E : gate_step addIceCandidate g (StateChange Closed r)
                  = {| sig := Closed; remote_set := r; candidatesQueue := candidatesQueue g;
                       applied := applied g; settled := settled g |})
        by (simpl; apply state_change_other; discriminate).
      rewrite E.
      destruct (IH {| sig := Closed; remote_set := r; candidatesQueue := candidatesQueue g;
                      applied := applied g; settled := settled g |} eq_refl Hc)
        as (H1 & H2 & H3 & H4).
      unfold run_gate in *. rewrite H1, H2, H3, H4. simpl.
      repeat split; reflexivity.
Qed.

(** C3 (amended): a queued submission is settled only at a transition
    into [stable]. Every other step (a submission, or a transition into
    any other state, [closed] included) keeps the queue as a prefix of
    the new one and settles nothing but the step's own submission. In
    particular the transition into [closed] leaves the queued submissions
    in the queue, unapplied and unsettled, and as long as the connection
    stays closed they stay so, while each later submission is rejected
    at once with the closed-connection error. *)
Theorem gate_closed_keeps_queue (Cand : Type) (addIceCandidate : Cand -> settlement) :
  (forall (g : gate Cand) (r : bool) (evs : list (gate_event Cand)),
     closed_only evs = true ->
     let g' := run_gate addIceCandidate (StateChange Closed r :: evs) g in
     sig g' = Closed /\ candidatesQueue g' = candidatesQueue g /\ applied g' = applied g
     /\ settled g' = settled g
                     ++ map (fun id => (id, Rejected ConnectionClosed)) (submitted_ids evs))
  /\ (forall (g : gate Cand) (ev : gate_event Cand),
        (forall r, ev <> StateChange Stable r) ->
        let g' := gate_step addIceCandidate g ev in
        exists extra new,
          candidatesQueue g' = candidatesQueue g ++ extra
          /\ settled g' = settled g ++ new
          /\ (forall x, In x (map fst new) -> In x (step_ids ev))).
Proof.
  split.
  - intros g r evs Hc. cbv zeta. unfold run_gate. cbn [fold_left].
    assert (E : gate_step addIceCandidate g (StateChange Closed r)
                = {| sig := Closed; remote_set := r; candidatesQueue := candidatesQueue g;
                     applied := applied g; settled := settled g |})
      by (simpl; apply state_change_other; discriminate).
    rewrite E.
    apply (closed_run_keeps_queue Cand addIceCandidate); [reflexivity|exact Hc].
  - intros g ev Hs. cbv zeta. destruct ev as [id c|s r].
    + simpl. unfold submit.
      destruct (sig g);
        try (exists [(id, c)], []; simpl; rewrite app_nil_r;
             split; [reflexivity|split; [reflexivity|intros x []]]).
      * destruct (remote_set g).
        -- exists [], [(id, addIceCandidate c)]. simpl. rewrite app_nil_r.
           split; [reflexivity|split; [reflexivity|tauto]].
        -- exists [], [(id, Rejected NoRemoteDescription)]. simpl. rewrite app_nil_r.
           split; [reflexivity|split; [reflexivity|tauto]].
      * exists [], [(id, Rejected ConnectionClosed)]. simpl. rewrite app_nil_r.
        split; [reflexivity|split; [reflexivity|tauto]].
    + assert (Hs' : s <> Stable) by (intros ->; exact (Hs r eq_refl)).
      simpl. rewrite (state_change_other _ _ s r g Hs'). simpl.
      exists [], []. rewrite !app_nil_r. split; [reflexivity|split; [reflexivity|intros x []]].
Qed.

(* ------------------------------------------------------------------ *)
(** ** The Outbound Candidate Buffer *)

Section OutboundProofs.

Variable Cand : Type.

Lemma drain_spec (ev : peer_event) (lid : nat) (q : list (option Cand)) acc :
  drain ev lid q acc = acc ++ map (fun c => (lid, c)) (filter (matches_event ev) q).
Proof.
  revert acc; induction q as [|c q IH]; intros acc; simpl.
  - rewrite app_nil_r. reflexivity.
  - rewrite IH. unfold matches_event.
    destruct (Bool.eqb _ _); simpl; [rewrite <- app_assoc|]; reflexivity.
Qed.

(** Without subscribers and before the end of gathering, candidates are
    appended to the buffer in arrival order. *)
Lemma feed_no_subscriber (cs : list Cand) (e : emitter Cand) :
  listeners e = [] -> candidategatheringdone e = false ->
  let e' := run_emitter (map (fun c => IceCandidate (Some c)) cs) e in
  listeners e' = [] /\ candidategatheringdone e' = false
  /\ candidatesQueueOut e' = candidatesQueueOut e ++ map Some cs
  /\ deliveries e' = deliveries e.
Proof.
  revert e; induction cs as [|c cs IH]; intros e Hl Hd; cbv zeta.
  - simpl. rewrite app_nil_r. repeat split; assumption || reflexivity.
  - unfold run_emitter. cbn [map fold_left emitter_step].
    assert (E : on_icecandidate (Some c) e = set_queue (candidatesQueueOut e ++ [Some c]) e).
    { unfold on_icecandidate, listenerCount. rewrite Hl, Hd. reflexivity. }
    rewrite E. destruct (IH (set_queue (candidatesQueueOut e ++ [Some c]) e) Hl Hd)
      as (H1 & H2 & H3 & H4).
    unfold run_emitter in *. rewrite H1, H2, H3, H4. simpl.
    rewrite <- app_assoc. repeat split; reflexivity.
Qed.

Lemma listenerCount_on (ev ev' : peer_event) (lid : nat) (e : emitter Cand) :
  listenerCount ev (on ev' lid e)
  = listenerCount ev e + (if peer_event_eqb ev' ev then 1 else 0).
Proof.
  assert (E : listeners (on_newListener ev' lid e) = listeners e)
    by (destruct ev'; reflexivity).
  unfold listenerCount, on. cbn [listeners]. rewrite E, filter_app, length_app.
  cbn [filter fst]. destruct (peer_event_eqb ev' ev); cbn [length]; lia.
Qed.

(** Once a subscriber exists and the buffer is empty, it stays empty. *)
Lemma step_keeps_empty (e : emitter Cand) (op : emitter_op Cand) :
  has_subscriber e = true -> candidatesQueueOut e = [] ->
  has_subscriber (emitter_step e op) = true /\ candidatesQueueOut (emitter_step e op) = [].
Proof.
  intros Hs Hq. destruct op as [c|ev lid]; simpl.
  - unfold on_icecandidate. unfold has_subscriber in Hs. rewrite Hs.
    destruct c as [c|]; [|destruct (negb (candidategatheringdone e))];
      split; assumption.
  - unfold has_subscriber in *. rewrite !listenerCount_on.
    split.
    + apply orb_true_iff in Hs as [H|H]; apply Nat.ltb_lt in H;
        apply orb_true_iff; [left|right]; apply Nat.ltb_lt; lia.
    + unfold on, on_newListener. destruct ev; simpl; [reflexivity|reflexivity|exact Hq].
Qed.

Lemma run_keeps_empty (ops : list (emitter_op Cand)) (e : emitter Cand) :
  has_subscriber e = true -> candidatesQueueOut e = [] ->
  has_subscriber (run_emitter ops e) = true /\ candidatesQueueOut (run_emitter ops e) = [].
Proof.
  revert e; induction ops as [|op ops IH]; intros e Hs Hq; [split; assumption|].
  destruct (step_keeps_empty e op Hs Hq) as [Hs' Hq'].
  exact (IH _ Hs' Hq').
Qed.

(** A subscription on an empty buffer replays nothing. *)
Lemma on_empty_buffer (ev : peer_event) (lid : nat) (e : emitter Cand) :
  candidatesQueueOut e = [] -> deliveries (on ev lid e) = deliveries e.
Proof.
  intros Hq. unfold on, on_newListener. rewrite Hq.
  destruct ev; reflexivity.
Qed.

Lemma filter_candidates_ice (lid : nat) (cs : list Cand) :
  map (fun c => (lid, c)) (filter (matches_event EvIcecandidate) (map Some cs))
  = map (fun c => (lid, Some c)) cs.
Proof. induction cs as [|c cs IH]; simpl; [reflexivity|]. f_equal. exact IH. Qed.

Lemma filter_candidates_done (cs : list Cand) :
  filter (matches_event EvCandidategatheringdone) (map Some cs) = [].
Proof. induction cs as [|c cs IH]; simpl; [reflexivity|exact IH]. Qed.

End OutboundProofs.

(** The buffer after [n] candidates and the terminal [null], all before
    any subscriber. *)
Lemma feed_then_null (Cand : Type) (cs : list Cand) :
  let e1 := run_emitter (map (fun c => IceCandidate (Some c)) cs ++ [IceCandidate None])
              (@emitter_init Cand) in
  listeners e1 = [] /\ candidategatheringdone e1 = true
  /\ candidatesQueueOut e1 = map Some cs ++ [None] /\ deliveries e1 = [].
Proof.
  cbv zeta. unfold run_emitter. rewrite fold_left_app.
  destruct (feed_no_subscriber Cand cs emitter_init eq_refl eq_refl) as (H1 & H2 & H3 & H4).
  unfold run_emitter in *. cbn [fold_left emitter_step].
  set (e := fold_left emitter_step _ _) in *.
  unfold on_icecandidate, listenerCount. rewrite H1, H2. simpl.
  rewrite H1, H3, H4. repeat split; reflexivity.
Qed.

(** C6 (counterexample): one candidate then the terminal [null] arrive
    before any subscriber; the first subscriber is for
    [candidategatheringdone] and receives the [null]; a later [icecandidate]
    subscriber receives nothing, so the buffered candidate is never
    delivered as an [icecandidate] event. *)
Lemma outbound_candidate_lost :
  let e := run_emitter
             [IceCandidate (Some 1); IceCandidate None;
              Subscribe EvCandidategatheringdone 0; Subscribe EvIcecandidate 1]
             emitter_init in
  deliveries e = [(0, None)] /\ ~ In (1, Some 1) (deliveries e).
Proof.
  vm_compute. split; [reflexivity|]. intros [H|[]]. discriminate.
Qed.

(** C6 (amended): [n] candidates and the terminal [null] arriving before
    any subscriber are buffered in arrival order. The first subscriber,
    for [icecandidate] or for [candidategatheringdone], empties the whole
    buffer: it receives, in arrival order, exactly the entries of its
    kind (the [n] candidates, or the single [null]) and the other entries
    are dropped. The buffer then stays empty, so no later subscriber is
    given any buffered entry. *)
Theorem outbound_first_subscriber_drains (Cand : Type) (cs : list Cand) (lid : nat) :
  let e1 := run_emitter (map (fun c => IceCandidate (Some c)) cs ++ [IceCandidate None])
              (@emitter_init Cand) in
  candidatesQueueOut e1 = map Some cs ++ [None] /\ deliveries e1 = []
  /\ (let e2 := on EvIcecandidate lid e1 in
      deliveries e2 = map (fun c => (lid, Some c)) cs
      /\ forall ops ev lid', candidatesQueueOut (run_emitter ops e2) = []
         /\ deliveries (on ev lid' (run_emitter ops e2)) = deliveries (run_emitter ops e2))
  /\ (let e2 := on EvCandidategatheringdone lid e1 in
      deliveries e2 = [(lid, None)]
      /\ forall ops ev lid', candidatesQueueOut (run_emitter ops e2) = []
         /\ deliveries (on ev lid' (run_emitter ops e2)) = deliveries (run_emitter ops e2)).
Proof.
  destruct (feed_then_null Cand cs) as (H1 & H2 & H3 & H4).
  set (e1 := run_emitter _ _) in *. cbv zeta.
  assert (After : forall ev, ev = EvIcecandidate \/ ev = EvCandidategatheringdone ->
            forall ops ev' lid',
              candidatesQueueOut (run_emitter ops (on ev lid e1)) = []
              /\ deliveries (on ev' lid' (run_emitter ops (on ev lid e1)))
                 = deliveries (run_emitter ops (on ev lid e1))).
  { intros ev Hev ops ev' lid'.
    assert (Hs : has_subscriber (on ev lid e1) = true).
    { unfold has_subscriber. rewrite !listenerCount_on.
      destruct Hev as [->| ->]; simpl;
        apply orb_true_iff; [left|right]; apply Nat.ltb_lt; lia. }
    assert (Hq : candidatesQueueOut (on ev lid e1) = [])
      by (destruct Hev as [->| ->]; reflexivity).
    destruct (run_keeps_empty Cand ops _ Hs Hq) as [_ Hq'].
    split; [exact Hq'|]. apply on_empty_buffer. exact Hq'. }
  split; [exact H3|]. split; [exact H4|]. split.
  - split; [|apply After; left; reflexivity].
    unfold on, on_newListener. cbn [deliveries]. rewrite drain_spec, H3, H4.
    rewrite filter_app, map_app. simpl.
    rewrite app_nil_r. apply filter_candidates_ice.
  - split; [|apply After; right; reflexivity].
    unfold on, on_newListener. cbn [deliveries]. rewrite drain_spec, H3, H4.
    rewrite filter_app, filter_candidates_done. reflexivity.
Qed.

(* ------------------------------------------------------------------ *)
(** ** [dispose] *)




(* ------------------------------------------------------------------ *)
(** ** Further properties of the gate *)

Section GateInvariants.

Variable Cand : Type.
Variable addIceCandidate : Cand -> settlement.

Lemma gate_step_stable_empty (g : gate Cand) (ev : gate_event Cand) :
  (sig g = Stable -> candidatesQueue g = []) ->
  let g' := gate_step addIceCandidate g ev in
  sig g' = Stable -> candidatesQueue g' = [].
Proof.
  intros Hinv. cbv zeta. destruct ev as [id c|s r]; simpl.
  - unfold submit. destruct (sig g) eqn:Hs; simpl; rewrite ?Hs;
      try (intros H; discriminate H).
    destruct (remote_set g); simpl; intros _; exact (Hinv eq_refl).
  - destruct s; [destruct (state_change_stable Cand addIceCandidate r g) as (_ & _ & H & _);
                  intros _; exact H|..];
      rewrite state_change_other by discriminate; simpl; intros H; discriminate H.
Qed.

Lemma run_stable_empty (evs : list (gate_event Cand)) (g : gate Cand) :
  (sig g = Stable -> candidatesQueue g = []) ->
  let g' := run_gate addIceCandidate evs g in
  sig g' = Stable -> candidatesQueue g' = [].
Proof.
  revert g; induction evs as [|ev evs IH]; intros g Hinv; [exact Hinv|].
  exact (IH _ (gate_step_stable_empty g ev Hinv)).
Qed.

Lemma tracked_settle (id : nat) (r : settlement) (g : gate Cand) :
  Permutation (tracked_ids (settle id r g)) (tracked_ids g ++ [id]).
Proof.
  unfold tracked_ids, settle. simpl. rewrite map_app, <- !app_assoc.
  apply Permutation_app_head. simpl.
  first [apply Permutation_cons_append | apply Permutation_sym, Permutation_cons_append].
Qed.

Lemma gate_step_tracked (g : gate Cand) (ev : gate_event Cand) :
  Permutation (tracked_ids (gate_step addIceCandidate g ev)) (tracked_ids g ++ step_ids ev).
Proof.
  destruct ev as [id c|s r]; simpl.
  - unfold submit. destruct (sig g).
    + destruct (remote_set g); [|apply tracked_settle].
      unfold tracked_ids, apply_candidate. simpl. rewrite map_app, <- !app_assoc.
      apply Permutation_app_head. simpl.
  first [apply Permutation_cons_append | apply Permutation_sym, Permutation_cons_append].
    + unfold tracked_ids, with_queue. simpl. rewrite map_app, <- app_assoc. reflexivity.
    + unfold tracked_ids, with_queue. simpl. rewrite map_app, <- app_assoc. reflexivity.
    + unfold tracked_ids, with_queue. simpl. rewrite map_app, <- app_assoc. reflexivity.
    + unfold tracked_ids, with_queue. simpl. rewrite map_app, <- app_assoc. reflexivity.
    + apply tracked_settle.
  - rewrite app_nil_r. destruct s.
    2-6: rewrite state_change_other by discriminate; reflexivity.
    destruct (state_change_stable Cand addIceCandidate r g) as (_ & _ & H3 & _ & H5).
    unfold tracked_ids. rewrite H3, H5, map_app, map_map. simpl.
    rewrite app_nil_r. reflexivity.
Qed.

Lemma run_tracked (evs : list (gate_event Cand)) (g : gate Cand) :
  Permutation (tracked_ids (run_gate addIceCandidate evs g)) (tracked_ids g ++ submitted_ids evs).
Proof.
  revert g; induction evs as [|ev evs IH]; intros g.
  - simpl. rewrite app_nil_r. reflexivity.
  - unfold run_gate in *. cbn [fold_left].
    eapply Permutation_trans; [apply IH|].
    replace (submitted_ids (ev :: evs)) with (step_ids ev ++ submitted_ids evs)
      by (destruct ev; reflexivity).
    rewrite app_assoc. apply Permutation_app_tail. apply gate_step_tracked.
Qed.

(** The connection's [addIceCandidate] is called only by a step that
    leaves the connection [stable]. *)
Lemma gate_step_applied (g : gate Cand) (ev : gate_event Cand) :
  let g' := gate_step addIceCandidate g ev in
  applied g' = applied g \/ sig g' = Stable.
Proof.
  cbv zeta. destruct ev as [id c|s r]; simpl.
  - unfold submit. destruct (sig g) eqn:Hs; try (left; reflexivity).
    destruct (remote_set g); [right; simpl; exact Hs|left; reflexivity].
  - destruct s.
    2-6: left; rewrite state_change_other by discriminate; reflexivity.
    right. apply (state_change_stable Cand addIceCandidate r g).
Qed.

End GateInvariants.


(** X1: starting from the gate [bufferizeCandidates] returns, whatever
    submissions and transitions follow, the queue is empty whenever the
    connection is [stable]: candidates wait only in the other states. *)
Theorem gate_stable_queue_empty {Cand : Type} (addIceCandidate : Cand -> settlement)
    (s : RTCSignalingState) (r : bool) (evs : list (gate_event Cand)) :
  sig (run_gate addIceCandidate evs (fresh_gate s r)) = Stable ->
  candidatesQueue (run_gate addIceCandidate evs (fresh_gate s r)) = [].
Proof. apply run_stable_empty. intros _. reflexivity. Qed.

(** X2: every submission to the gate is, at any time, either settled or
    still queued, exactly once: the numbers of the settled and queued
    submissions are a permutation of the submitted ones. So no promise
    is settled twice when the submissions are distinct. *)
Theorem gate_settles_each_once {Cand : Type} (addIceCandidate : Cand -> settlement)
    (s : RTCSignalingState) (r : bool) (evs : list (gate_event Cand)) :
  let g' := run_gate addIceCandidate evs (fresh_gate s r) in
  Permutation (map fst (settled g') ++ map fst (candidatesQueue g')) (submitted_ids evs)
  /\ (NoDup (submitted_ids evs) -> NoDup (map fst (settled g'))).
Proof.
  cbv zeta. pose proof (run_tracked Cand addIceCandidate evs (fresh_gate s r)) as P.
  unfold tracked_ids at 2 in P. simpl in P. unfold tracked_ids in P.
  split; [exact P|].
  intros Hnd. apply (NoDup_app_remove_r _ (map fst (candidatesQueue
    (run_gate addIceCandidate evs (fresh_gate s r))))).
  apply (Permutation_NoDup (Permutation_sym P)). exact Hnd.
Qed.

(** X3: the gate calls the connection's [addIceCandidate] only in a step
    that leaves the connection [stable]: a step either applies no
    candidate, or ends in [stable]. *)
Theorem gate_applies_only_stable {Cand : Type} (addIceCandidate : Cand -> settlement)
    (g : gate Cand) (ev : gate_event Cand) :
  applied (gate_step addIceCandidate g ev) = applied g
  \/ sig (gate_step addIceCandidate g ev) = Stable.
Proof. apply gate_step_applied. Qed.

(** X4: the flush on a transition into [stable] does not look at the
    remote description, while a direct submission does: entering
    [stable] without a remote description still applies every queued
    candidate, and a submission right after is rejected with
    "No Remote Description" without being applied. *)
Theorem gate_flush_ignores_remote {Cand : Type} (addIceCandidate : Cand -> settlement)
    (g : gate Cand) (id : nat) (c : Cand) :
  let g1 := state_change addIceCandidate Stable false g in
  let g2 := submit addIceCandidate id c g1 in
  applied g1 = applied g ++ map snd (candidatesQueue g)
  /\ settled g1 = settled g ++ map (outcome_of addIceCandidate) (candidatesQueue g)
  /\ applied g2 = applied g1
  /\ settled g2 = settled g1 ++ [(id, Rejected NoRemoteDescription)].
Proof.
  cbv zeta.
  destruct (state_change_stable Cand addIceCandidate false g) as (H1 & H2 & _ & H4 & H5).
  unfold submit. rewrite H1, H2. simpl. repeat split; assumption || reflexivity.
Qed.

(* ------------------------------------------------------------------ *)
(** ** Further properties of the outbound buffer *)

Section OutboundMore.

Variable Cand : Type.

Lemma feed_with_subscriber (cs : list Cand) (e : emitter Cand) :
  has_subscriber e = true ->
  run_emitter (map (fun c => IceCandidate (Some c)) cs) e
  = match cs with
    | [] => e
    | _ => {| listeners := listeners e; candidatesQueueOut := candidatesQueueOut e;
              candidategatheringdone := true;
              deliveries := deliveries e ++ flat_map (ice_calls (listeners e)) cs |}
    end.
Proof.
  revert e; induction cs as [|c cs IH]; intros e Hs; [reflexivity|].
  unfold run_emitter. cbn [map fold_left emitter_step].
  assert (E : on_icecandidate (Some c) e
              = {| listeners := listeners e; candidatesQueueOut := candidatesQueueOut e;
                   candidategatheringdone := true;
                   deliveries := deliveries e ++ ice_calls (listeners e) c |}).
  { unfold on_icecandidate. unfold has_subscriber in Hs. rewrite Hs. reflexivity. }
  rewrite E. unfold run_emitter in IH. rewrite IH by exact Hs. destruct cs as [|c' cs']; simpl; [rewrite app_nil_r; reflexivity|].
  rewrite <- app_assoc. reflexivity.
Qed.

Lemma feed_after_done (cs : list Cand) (e : emitter Cand) :
  listeners e = [] -> candidategatheringdone e = true ->
  run_emitter (map (fun c => IceCandidate (Some c)) cs) e = e.
Proof.
  revert e; induction cs as [|c cs IH]; intros e Hl Hd; [reflexivity|].
  unfold run_emitter. cbn [map fold_left emitter_step].
  assert (E : on_icecandidate (Some c) e = e).
  { unfold on_icecandidate, listenerCount. rewrite Hl, Hd. reflexivity. }
  rewrite E. apply IH; assumption.
Qed.

End OutboundMore.


(** X5: with a subscriber already present, once a candidate has gone
    through the listener path the flag [candidategatheringdone] is
    [true], so the end of gathering ([null]) that follows is not
    emitted: the candidates reach the [icecandidate] listeners in order
    and no [candidategatheringdone] listener is called. *)
Theorem outbound_done_not_emitted_after_candidate {Cand : Type}
    (e : emitter Cand) (c : Cand) (cs : list Cand) :
  has_subscriber e = true ->
  let e' := run_emitter (map (fun c => IceCandidate (Some c)) (c :: cs)
                         ++ [IceCandidate None]) e in
  deliveries e' = deliveries e ++ flat_map (ice_calls (listeners e)) (c :: cs)
  /\ candidategatheringdone e' = true /\ listeners e' = listeners e.
Proof.
  intros Hs. cbv zeta. unfold run_emitter. rewrite fold_left_app.
  fold (run_emitter (map (fun c0 => IceCandidate (Some c0)) (c :: cs)) e).
  rewrite (feed_with_subscriber Cand (c :: cs) e Hs). simpl.
  unfold on_icecandidate, listenerCount. simpl.
  unfold has_subscriber, listenerCount in Hs. rewrite Hs. simpl.
  repeat split; reflexivity.
Qed.

(** X6: before any subscriber, candidates that arrive after the end of
    gathering are dropped: the buffer keeps the candidates up to the
    [null] and nothing after it, and no listener is called. *)
Theorem outbound_drops_after_null {Cand : Type} (cs1 cs2 : list Cand) :
  let e' := run_emitter (map (fun c => IceCandidate (Some c)) cs1 ++ [IceCandidate None]
                         ++ map (fun c => IceCandidate (Some c)) cs2) emitter_init in
  candidatesQueueOut e' = map Some cs1 ++ [None]
  /\ deliveries e' = [] /\ candidategatheringdone e' = true.
Proof.
  cbv zeta. unfold run_emitter. rewrite !fold_left_app.
  fold (run_emitter (map (fun c => IceCandidate (Some c)) cs1) (@emitter_init Cand)).
  destruct (feed_no_subscriber Cand cs1 emitter_init eq_refl eq_refl)
    as (H1 & H2 & H3 & H4).
  set (e1 := run_emitter (map (fun c => IceCandidate (Some c)) cs1) emitter_init) in *.
  cbn [fold_left emitter_step].
  assert (E : on_icecandidate None e1
              = set_done true (set_queue (candidatesQueueOut e1 ++ [None]) e1)).
  { unfold on_icecandidate, listenerCount. rewrite H1, H2. reflexivity. }
  rewrite E. fold (run_emitter (map (fun c => IceCandidate (Some c)) cs2)
                    (set_done true (set_queue (candidatesQueueOut e1 ++ [None]) e1))).
  rewrite feed_after_done by (simpl; assumption || reflexivity).
  simpl. rewrite H3, H4. repeat split; reflexivity.
Qed.

(* ------------------------------------------------------------------ *)
(** ** Further properties of [removeFIDFromOffer] *)

(** X7: either the output of [removeFIDFromOffer] holds the marker
    ["a=ssrc-group:FID"] nowhere, or its first occurrence of the marker
    is at offset 0 and the output is the whole input, unchanged (further
    occurrences of the marker included). *)
Theorem removeFID_marker_only_at_start (s : string) :
  index_of FID_MARKER (removeFIDFromOffer s) = None
  \/ (index_of FID_MARKER (removeFIDFromOffer s) = Some 0 /\ removeFIDFromOffer s = s).
Proof.
  destruct (removeFID_cases s) as [[n [E R]]|[[E R]|[E R]]]; rewrite R.
  - left. apply index_of_take_first; [exact FID_MARKER_nonempty|exact E].
  - right. split; [exact E|reflexivity].
  - left. exact E.
Qed.

(* ------------------------------------------------------------------ *)
(** ** Enabling and disabling local tracks *)

Lemma setEnabled_some (k : track_kind) (v : bool) (ss : list (option LocalTrack)) :
  setEnabled k v (Some ss) = inr (Some (map (option_map (set_kind k v)) ss)).
Proof. reflexivity. Qed.

Lemma getEnabled_some (k : track_kind) (ss : list (option LocalTrack)) :
  getEnabled k (Some ss) = existsb lt_enabled (tracks_of_kind k (sender_tracks ss)).
Proof. unfold getEnabled, getLocalStreams. simpl. apply orb_false_r. Qed.

Lemma set_kind_same (k : track_kind) (v : bool) (ss : list (option LocalTrack)) :
  existsb lt_enabled (tracks_of_kind k (sender_tracks (map (option_map (set_kind k v)) ss)))
  = v && has_track k ss.
Proof.
  unfold has_track. induction ss as [|[t|] ss IH]; simpl.
  - destruct v; reflexivity.
  - destruct t as [i kd en]. unfold tracks_of_kind, set_kind in *. simpl.
    destruct kd, k, v; simpl in *; rewrite ?IH, ?orb_false_r; reflexivity.
  - exact IH.
Qed.

Lemma set_kind_other (k k' : track_kind) (v : bool) (ss : list (option LocalTrack)) :
  k' <> k ->
  tracks_of_kind k' (sender_tracks (map (option_map (set_kind k v)) ss))
  = tracks_of_kind k' (sender_tracks ss).
Proof.
  intros Hk. induction ss as [|[t|] ss IH]; simpl; [reflexivity| |exact IH].
  destruct t as [i kd en]. unfold tracks_of_kind, set_kind in *. simpl.
  destruct kd, k, k'; simpl in *; try congruence; f_equal; exact IH.
Qed.

Lemma set_kind_has_track (k k' : track_kind) (v : bool) (ss : list (option LocalTrack)) :
  has_track k' (map (option_map (set_kind k v)) ss) = has_track k' ss.
Proof.
  assert (K : forall t, lt_kind (set_kind k v t) = lt_kind t)
    by (intros t; unfold set_kind; destruct (track_kind_eqb _ _); reflexivity).
  unfold has_track, sender_tracks in *.
  induction ss as [|[t|] ss IH]; simpl; [reflexivity| |exact IH].
  rewrite K, IH. reflexivity.
Qed.

(** X8: [setEnabled] then [getEnabled] on the same kind gives back the
    value set when the connection has a track of that kind (and [false]
    when it has none); the tracks of the other kind are left exactly as
    they were (same tracks, same order, same [enabled] flags), so
    [getEnabled] of the other kind is unchanged. *)
Theorem setEnabled_getEnabled (k k' : track_kind) (v : bool) (ss : list (option LocalTrack)) :
  exists ss',
    setEnabled k v (Some ss) = inr (Some ss')
    /\ getEnabled k (Some ss') = v && has_track k ss
    /\ (k' <> k ->
        tracks_of_kind k' (sender_tracks ss') = tracks_of_kind k' (sender_tracks ss)
        /\ getEnabled k' (Some ss') = getEnabled k' (Some ss)).
Proof.
  exists (map (option_map (set_kind k v)) ss). split; [apply setEnabled_some|].
  rewrite !getEnabled_some. split; [apply set_kind_same|].
  intros Hk. rewrite set_kind_other by exact Hk. split; reflexivity.
Qed.

(** X9: after [enable = v], [enabled] is [v] when the connection has an
    audio track and a video track; if either kind is missing, [enabled]
    is [false] whatever was set. *)
Theorem enable_enabled (v : bool) (ss : list (option LocalTrack)) :
  exists ss',
    enable v (Some ss) = inr (Some ss')
    /\ enabled (Some ss') = v && has_track Audio ss && has_track Video ss.
Proof.
  set (ss1 := map (option_map (set_kind Video v)) ss).
  exists (map (option_map (set_kind Audio v)) ss1). split; [reflexivity|].
  unfold enabled. rewrite !getEnabled_some, set_kind_same.
  rewrite set_kind_other by discriminate. unfold ss1.
  rewrite set_kind_same, set_kind_has_track.
  destruct v, (has_track Audio ss), (has_track Video ss); reflexivity.
Qed.

(* ------------------------------------------------------------------ *)
(** ** [dispose] and [send] *)

Lemma stop_tracks_effect (ts : list (nat * bool)) (st : peer_res) :
  stop_tracks no_throw ts st
  = Normal {| dc := dc st; pc := pc st;
              local_tracks := map (fun t => (fst t, snd t || existsb (Nat.eqb (fst t)) (map fst ts)))
                                  (local_tracks st);
              calls := calls st ++ map (fun t => CallTrackStop (fst t)) ts;
              warnings := warnings st; dispose_events := dispose_events st |}.
Proof.
  revert st; induction ts as [|t ts IH]; intros st.
  - simpl. rewrite app_nil_r.
    replace (map _ (local_tracks st)) with (local_tracks st).
    + destruct st; reflexivity.
    + rewrite <- (map_id (local_tracks st)) at 1. apply map_ext.
      intros [a b]. simpl. rewrite orb_false_r. reflexivity.
  - simpl. rewrite IH. simpl. rewrite map_map, <- app_assoc. simpl.
    f_equal. f_equal. apply map_ext. intros [a b]. simpl.
    destruct (Nat.eqb a (fst t)); simpl; [rewrite orb_true_r|]; reflexivity.
Qed.

Lemma existsb_own_id (x : nat * bool) (l : list (nat * bool)) :
  In x l -> existsb (Nat.eqb (fst x)) (map fst l) = true.
Proof.
  intros H. apply existsb_exists. exists (fst x). split.
  - apply in_map. exact H.
  - apply Nat.eqb_refl.
Qed.

(** After a [dispose] whose calls do not throw, the data channel, if
    any, is no longer open: it is [closing] or [closed]. *)
Lemma dispose_dc (st : peer_res) :
  let d := dc (completion_state (dispose no_throw st)) in
  d = None \/ d = Some DcClosing \/ d = Some DcClosed.
Proof.
  cbv zeta. unfold dispose, dispose_try.
  destruct (dc st) as [[]|] eqn:Hd; destruct (pc st) as [[]|] eqn:Hp;
    simpl; rewrite ?Hd, ?Hp; try rewrite stop_tracks_effect; simpl; rewrite ?Hd, ?Hp;
    first [left; reflexivity | right; left; reflexivity | right; right; reflexivity].
Qed.

(** X10: a first [dispose] of a peer whose data channel is not closed
    and whose connection is open tears everything down: it closes the
    data channel (if any), stops every local track in order, closes the
    connection, and runs the [_dispose] handler once, without warning. *)
Theorem dispose_tears_down (st : peer_res) :
  pc st <> None -> pc st <> Some Closed -> dc st <> Some DcClosed ->
  let st1 := completion_state (dispose no_throw st) in
  dispose no_throw st = Normal st1
  /\ calls st1 = calls st ++ (match dc st with Some _ => [CallDcClose] | None => [] end)
                 ++ map (fun t => CallTrackStop (fst t)) (local_tracks st) ++ [CallPcClose]
  /\ map fst (local_tracks st1) = map fst (local_tracks st)
  /\ (forall t, In t (local_tracks st1) -> snd t = true)
  /\ pc st1 = Some Closed
  /\ dispose_events st1 = S (dispose_events st)
  /\ warnings st1 = warnings st.
Proof.
  intros Hp1 Hp2 Hd. cbv zeta.
  assert (Hstop : forall l : list (nat * bool),
    (forall t, In t (map (fun t => (fst t, snd t || existsb (Nat.eqb (fst t)) (map fst l))) l)
               -> snd t = true)
    /\ map fst (map (fun t => (fst t, snd t || existsb (Nat.eqb (fst t)) (map fst l))) l)
       = map fst l).
  { intros l. split.
    - intros t Ht. apply in_map_iff in Ht as [x [<- Hx]]. simpl.
      rewrite existsb_own_id by exact Hx. apply orb_true_r.
    - rewrite map_map. reflexivity. }
  unfold dispose, dispose_try.
  destruct (pc st) as [p|] eqn:Hp; [|congruence].
  destruct p; try congruence;
  (destruct (dc st) as [[]|] eqn:Hdc; [| | |congruence|]);
  simpl; rewrite ?Hp; rewrite stop_tracks_effect; simpl; rewrite ?Hp;
  destruct (Hstop (local_tracks st)) as [S1 S2];
  (repeat split; [rewrite <- ?app_assoc; reflexivity|exact S2|exact S1]).
Qed.

(** X11: a peer whose data channel is already [closed] is not torn down
    at all: [dispose] returns at once, the connection is not closed, no
    track is stopped and the [_dispose] handler does not run. *)
Theorem dispose_closed_channel_returns (throws : teardown_call -> bool) (st : peer_res) :
  dc st = Some DcClosed -> dispose throws st = Return st.
Proof. intros Hd. unfold dispose, dispose_try. rewrite Hd. reflexivity. Qed.

(** X12: once the peer is disposed (its browser calls not throwing),
    [send] never hands data to the data channel: it only logs the
    warning. *)
Theorem send_after_dispose (st : peer_res) (data : string) :
  send (dc (completion_state (dispose no_throw st))) data
  = (["Trying to send data over a non-existing or closed data channel"], None).
Proof.
  destruct (dispose_dc st) as [H|[H|H]]; rewrite H; reflexivity.
Qed.

(* ------------------------------------------------------------------ *)
(** ** [generateOffer] *)




(* ------------------------------------------------------------------ *)
(** ** [processAnswer] and [start] *)

(** X15: an offer made by [generateOffer] on a [stable] connection, with
    the browser's [setLocalDescription], followed by [processAnswer] with
    the browser's [setRemoteDescription], completes the negotiation: the
    connection is [stable] again, with the offer returned by
    [generateOffer] as local description and the answer as remote
    description. *)
Theorem generateOffer_processAnswer
    (createOffer : OfferConnection -> js_error + RTCSessionDescription)
    (simulcast : bool) (videoStream : option MediaStream)
    (mode : WebRtcPeerMode) (mediaConstraints : constraints) (pc0 : OfferConnection)
    (o : RTCSessionDescription) (answer_sdp : string) :
  signalingState (conn pc0) = Stable ->
  createOffer {| conn := conn pc0;
                 transceivers := prepareTransceivers mode mediaConstraints (transceivers pc0) |}
  = inr o ->
  sd_type o = SdpOffer ->
  simulcast = false \/ videoStream <> None ->
  let r := generateOffer createOffer browser_setLocalDescription simulcast videoStream
             mode mediaConstraints pc0 in
  exists offer_sdp,
    fst r = inr offer_sdp
    /\ processAnswer browser_setRemoteDescription (conn (snd r)) answer_sdp
       = (inr tt, {| signalingState := Stable;
                     localDescription := Some {| sd_type := SdpOffer; sd_sdp := offer_sdp |};
                     remoteDescription := Some {| sd_type := SdpAnswer; sd_sdp := answer_sdp |} |}).
Proof.
  intros Hs Hc Ht Hv. cbv zeta. unfold generateOffer. rewrite Hc.
  destruct o as [t sdp]. simpl in Ht. subst t.
  unfold mangleSdpToAddSimulcast.
  destruct simulcast; [destruct videoStream as [vs|]; [|destruct Hv as [H|H]; congruence]|];
    unfold browser_setLocalDescription; simpl; rewrite Hs; simpl;
    eexists; split; reflexivity.
Qed.

(** X16: with the browser's [setRemoteDescription], [processAnswer]
    completes a local offer: in [have-local-offer], and in
    [have-remote-pranswer] after a provisional answer, the connection
    becomes [stable], the answer is the remote description and the
    local description is kept. On a closed connection it rejects with
    "PeerConnection is closed", and in any other state (an answer given
    twice, for one) the browser rejects it; a rejection leaves the
    connection as it was. *)
Theorem processAnswer_states (pc : RTCPeerConnection) (sdp : string) :
  processAnswer browser_setRemoteDescription pc sdp
  = match signalingState pc with
    | Closed => (inl (Error "PeerConnection is closed"), pc)
    | HaveLocalOffer | HaveRemotePranswer =>
        (inr tt, {| signalingState := Stable; localDescription := localDescription pc;
                    remoteDescription := Some {| sd_type := SdpAnswer; sd_sdp := sdp |} |})
    | _ => (inl (Error "InvalidStateError"), pc)
    end.
Proof. destruct pc as [[] l r]; reflexivity. Qed.

Lemma acquire_keeps (getUserMedia : constraints -> js_error + LocalStream)
    (getDisplayMedia : js_error + option LocalStream) (p : StartPeer) :
  match acquire getUserMedia getDisplayMedia p with
  | inl (_, p1) => senders p1 = senders p /\ signaling p1 = signaling p
  | inr p1 => senders p1 = senders p /\ signaling p1 = signaling p
  end.
Proof.
  unfold acquire.
  destruct (_ && _); [|split; reflexivity].
  destruct (String.eqb _ _);
    [destruct (getUserMedia _)|destruct (getScreenConstraints getDisplayMedia)];
    split; reflexivity.
Qed.

(** X17: [start] on a closed connection never adds a track and never
    resolves. The check comes after the acquisition, so a sending peer
    without streams still asks for the webcam and keeps the stream it
    gets, and only then rejects. *)
Theorem start_closed_connection (getUserMedia : constraints -> js_error + LocalStream)
    (getDisplayMedia : js_error + option LocalStream) (p : StartPeer) :
  signaling p = Closed ->
  let r := start getUserMedia getDisplayMedia p in
  fst r <> inr tt /\ senders (snd r) = senders p
  /\ (mode p <> Recvonly -> videoStream p = None -> audioStream p = None ->
      sendSource p = "webcam" ->
      let c := match mediaConstraints p with Some c => Some c | None => MEDIA_CONSTRAINTS end in
      requests (snd r) = requests p ++ [ReqUserMedia c]
      /\ (forall s, getUserMedia c = inr s ->
                    videoStream (snd r) = Some s
                    /\ fst r = inl (Error closed_start_message))).
Proof.
  intros Hcl. cbv zeta. split; [|split].
  - unfold start. pose proof (acquire_keeps getUserMedia getDisplayMedia p) as K.
    destruct (acquire getUserMedia getDisplayMedia p) as [[e p1]|p1]; [discriminate|].
    destruct K as [_ K]. rewrite K, Hcl. discriminate.
  - unfold start. pose proof (acquire_keeps getUserMedia getDisplayMedia p) as K.
    destruct (acquire getUserMedia getDisplayMedia p) as [[e p1]|p1]; [apply K|].
    destruct K as [K1 K2]. rewrite K2, Hcl. exact K1.
  - intros Hm Hv Ha Hw. unfold start, acquire. rewrite Hv, Ha, Hw.
    replace (negb (WebRtcPeerMode_eqb (mode p) Recvonly)) with true
      by (destruct (mode p); congruence || reflexivity).
    simpl. destruct (getUserMedia _) as [e|s] eqn:G; simpl; rewrite ?Hcl; simpl.
    + split; [reflexivity|]. intros s' G'. congruence.
    + split; [reflexivity|]. intros s' G'. injection G' as <-.
      split; reflexivity.
Qed.

Lemma existsb_eqb_false (t : nat) (l : list nat) :
  ~ In t l -> existsb (Nat.eqb t) l = false.
Proof.
  intros H. destruct (existsb (Nat.eqb t) l) eqn:E; [|reflexivity].
  apply existsb_exists in E as [x [Hx Ex]]. apply Nat.eqb_eq in Ex. subst x.
  contradiction.
Qed.

Lemma with_senders_twice (l1 l2 : list (nat * string)) (p : StartPeer) :
  with_senders l2 (with_senders l1 p) = with_senders l2 p.
Proof. destruct p; reflexivity. Qed.

(** A successful [forEach] of [addTrack] adds one sender per track, in
    order. *)
Lemma add_track_list_inr (sid : string) (ts : list nat) (p p' : StartPeer) :
  add_track_list sid ts p = inr p' ->
  p' = with_senders (senders p ++ map (fun t => (t, sid)) ts) p.
Proof.
  revert p; induction ts as [|t ts IH]; intros p H; simpl in H.
  - injection H as <-. rewrite app_nil_r. destruct p; reflexivity.
  - destruct (existsb _ _); [discriminate|].
    apply IH in H. rewrite H, with_senders_twice. simpl.
    rewrite <- app_assoc. reflexivity.
Qed.

(** Tracks that have no sender yet, and are pairwise distinct, are all
    added. *)
Lemma add_track_list_fresh (sid : string) (ts : list nat) (p : StartPeer) :
  NoDup (map fst (senders p) ++ ts) ->
  add_track_list sid ts p = inr (with_senders (senders p ++ map (fun t => (t, sid)) ts) p).
Proof.
  revert p; induction ts as [|t ts IH]; intros p H; simpl.
  - rewrite app_nil_r. destruct p; reflexivity.
  - rewrite existsb_eqb_false
      by (intros Hin; apply (NoDup_remove_2 _ _ _ H); apply in_or_app; left; exact Hin).
    rewrite IH.
    + rewrite with_senders_twice. simpl. rewrite <- app_assoc. reflexivity.
    + simpl. rewrite map_app, <- app_assoc. exact H.
Qed.

Lemma stream_senders_fst (s : option LocalStream) :
  map fst (stream_senders s) = match s with None => [] | Some s => ls_tracks s end.
Proof.
  destruct s as [s|]; [|reflexivity]. simpl. rewrite map_map. apply map_id.
Qed.

Lemma add_tracks_fresh (s : option LocalStream) (p : StartPeer) :
  NoDup (map fst (senders p ++ stream_senders s)) ->
  add_tracks s p = inr (with_senders (senders p ++ stream_senders s) p).
Proof.
  intros H. destruct s as [s|]; simpl.
  - apply add_track_list_fresh. rewrite map_app, stream_senders_fst in H. exact H.
  - rewrite app_nil_r. destruct p; reflexivity.
Qed.

Lemma add_tracks_inr (s : option LocalStream) (p p' : StartPeer) :
  add_tracks s p = inr p' -> p' = with_senders (senders p ++ stream_senders s) p.
Proof.
  destruct s as [s|]; simpl; intros H.
  - apply add_track_list_inr. exact H.
  - injection H as <-. rewrite app_nil_r. destruct p; reflexivity.
Qed.

(** Once the media is acquired on an open connection, [start] adds the
    tracks of both streams when none has a sender yet. *)
Lemma start_after_acquire (getUserMedia : constraints -> js_error + LocalStream)
    (getDisplayMedia : js_error + option LocalStream) (p p1 : StartPeer) :
  acquire getUserMedia getDisplayMedia p = inr p1 ->
  signaling p1 <> Closed ->
  NoDup (map fst (senders p1 ++ stream_senders (videoStream p1)
                  ++ stream_senders (audioStream p1))) ->
  start getUserMedia getDisplayMedia p
  = (inr tt, with_senders (senders p1 ++ stream_senders (videoStream p1)
                           ++ stream_senders (audioStream p1)) p1).
Proof.
  intros A Hcl H. unfold start. rewrite A.
  replace (RTCSignalingState_eqb (signaling p1) Closed) with false
    by (destruct (signaling p1); congruence || reflexivity).
  rewrite add_tracks_fresh.
  - rewrite add_tracks_fresh.
    + rewrite with_senders_twice. simpl. rewrite <- app_assoc. reflexivity.
    + destruct p1; simpl in *. rewrite <- app_assoc. exact H.
  - rewrite app_assoc, map_app in H. apply NoDup_app_remove_r in H. exact H.
Qed.

(** X18: on a connection that is not closed, [start] adds the tracks of
    the video stream and then those of the audio stream, each with its
    own stream, when no two of these tracks are the same and none has a
    sender yet ([addTrack] rejects a track that has one). A peer in
    [recvonly] mode, or one given a stream, asks the browser for no
    media. A sending peer without streams first gets the webcam stream
    (or the screen) and adds its tracks. When the screen capture yields
    no stream, it rejects with "This library is not enabled for screen
    sharing" and adds no track. *)
Theorem start_adds_tracks (getUserMedia : constraints -> js_error + LocalStream)
    (getDisplayMedia : js_error + option LocalStream) (p : StartPeer) :
  signaling p <> Closed ->
  let r := start getUserMedia getDisplayMedia p in
  ((mode p = Recvonly \/ videoStream p <> None \/ audioStream p <> None) ->
   NoDup (map fst (senders p ++ stream_senders (videoStream p)
                   ++ stream_senders (audioStream p))) ->
   r = (inr tt, {| mode := mode p; videoStream := videoStream p; audioStream := audioStream p;
                   sendSource := sendSource p; mediaConstraints := mediaConstraints p;
                   signaling := signaling p; requests := requests p;
                   senders := senders p ++ stream_senders (videoStream p)
                              ++ stream_senders (audioStream p) |}))
  /\ (mode p <> Recvonly -> videoStream p = None -> audioStream p = None ->
      (sendSource p = "webcam" ->
       let c := match mediaConstraints p with Some c => Some c | None => MEDIA_CONSTRAINTS end in
       forall s, getUserMedia c = inr s ->
       NoDup (map fst (senders p ++ stream_senders (Some s))) ->
       fst r = inr tt /\ requests (snd r) = requests p ++ [ReqUserMedia c]
       /\ senders (snd r) = senders p ++ stream_senders (Some s))
      /\ (sendSource p <> "webcam" -> getDisplayMedia = inr None ->
          r = (inl (Error "This library is not enabled for screen sharing"),
               with_request ReqDisplayMedia p))).
Proof.
  intros Hcl. cbv zeta. split.
  - intros H Hn.
    assert (A : acquire getUserMedia getDisplayMedia p = inr p).
    { unfold acquire.
      replace (negb (WebRtcPeerMode_eqb (mode p) Recvonly)
               && match videoStream p, audioStream p with None, None => true | _, _ => false end)
        with false; [reflexivity|].
      destruct H as [H|[H|H]].
      - rewrite H. reflexivity.
      - destruct (videoStream p); [|congruence]. symmetry. apply andb_false_r.
      - destruct (videoStream p), (audioStream p); try congruence;
          symmetry; apply andb_false_r. }
    rewrite (start_after_acquire _ _ p p A Hcl Hn). destruct p; reflexivity.
  - intros Hm Hv Ha.
    assert (Hn : negb (WebRtcPeerMode_eqb (mode p) Recvonly) = true)
      by (destruct (mode p); congruence || reflexivity).
    split.
    + intros Hw s G Hd.
      set (c := match mediaConstraints p with Some c => Some c | None => MEDIA_CONSTRAINTS end) in *.
      assert (A : acquire getUserMedia getDisplayMedia p
                  = inr (with_videoStream s (with_request (ReqUserMedia c) p))).
      { unfold acquire. rewrite Hn, Hv, Ha, Hw. simpl. fold c. rewrite G. reflexivity. }
      rewrite (start_after_acquire _ _ p _ A).
      * simpl. rewrite Ha, app_nil_r. split; [reflexivity|split; reflexivity].
      * exact Hcl.
      * simpl. rewrite Ha, app_nil_r. exact Hd.
    + intros Hw G. unfold start, acquire. rewrite Hn, Hv, Ha. simpl.
      replace (String.eqb (sendSource p) "webcam") with false
        by (symmetry; apply String.eqb_neq; exact Hw).
      unfold getScreenConstraints. rewrite G. reflexivity.
Qed.

(** [start] on an open connection whose video stream has a first track
    that already has a sender: [addTrack] rejects. *)
Lemma start_used_track (getUserMedia : constraints -> js_error + LocalStream)
    (getDisplayMedia : js_error + option LocalStream) (q : StartPeer)
    (s : LocalStream) (t : nat) (ts : list nat) :
  videoStream q = Some s -> ls_tracks s = t :: ts ->
  In t (map fst (senders q)) -> signaling q <> Closed ->
  start getUserMedia getDisplayMedia q = (inl (Error "InvalidAccessError"), q).
Proof.
  intros Hv Ht Hin Hcl. unfold start, acquire. rewrite Hv, andb_false_r.
  replace (RTCSignalingState_eqb (signaling q) Closed) with false
    by (destruct (signaling q); congruence || reflexivity).
  unfold add_tracks. rewrite Hv, Ht. simpl.
  replace (existsb (Nat.eqb t) (map fst (senders q))) with true; [reflexivity|].
  symmetry. apply existsb_exists. exists t. split; [exact Hin|apply Nat.eqb_refl].
Qed.

(** X19: a second [start] after a successful one rejects when the video
    stream has a track: its first track already has a sender, and
    [addTrack] rejects it with an [InvalidAccessError]; the peer is left
    as it was. *)
Theorem start_twice_rejects (getUserMedia : constraints -> js_error + LocalStream)
    (getDisplayMedia : js_error + option LocalStream) (p p1 : StartPeer)
    (s : LocalStream) (t : nat) (ts : list nat) :
  start getUserMedia getDisplayMedia p = (inr tt, p1) ->
  videoStream p1 = Some s -> ls_tracks s = t :: ts ->
  start getUserMedia getDisplayMedia p1 = (inl (Error "InvalidAccessError"), p1).
Proof.
  intros H Hv Ht. unfold start in H.
  pose proof (acquire_keeps getUserMedia getDisplayMedia p) as K.
  destruct (acquire getUserMedia getDisplayMedia p) as [[e p0]|p0]; [discriminate|].
  destruct K as [_ K].
  destruct (RTCSignalingState_eqb (signaling p0) Closed) eqn:Hc; [discriminate|].
  destruct (add_tracks (videoStream p0) p0) as [[e p2]|p2] eqn:E2; [discriminate|].
  destruct (add_tracks (audioStream p2) p2) as [[e p3]|p3] eqn:E3; [discriminate|].
  injection H as <-. apply add_tracks_inr in E2, E3. subst p2 p3.
  rewrite with_senders_twice in *. simpl in Hv.
  apply (start_used_track _ _ _ s t ts); [exact Hv|exact Ht| |].
  - simpl. rewrite !map_app, stream_senders_fst, Hv, Ht.
    apply in_or_app. left. apply in_or_app. right. left. reflexivity.
  - simpl. intros E. rewrite E in Hc. discriminate.
Qed.

(* ------------------------------------------------------------------ *)
(** ** Instances of the theorems at concrete inputs *)

Lemma getSimulcastInfo_block_witness :
  video_tracks stream0 = [{| track_id := "track0" |}]
  /\ has_nl "stream0" = false /\ has_nl "track0" = false
  /\ filter is_group_line (lines (snd (getSimulcastInfo stream0)))
     = ["a=ssrc-group:SIM 1 2 3"]
  /\ fst (getSimulcastInfo {| stream_id := "s"; video_tracks := [] |})
     = ["No video tracks available in the video stream"].
Proof.
  destruct (getSimulcastInfo_block stream0 "v=0") as (_ & P).
  destruct (P {| track_id := "track0" |} [] eq_refl eq_refl eq_refl) as (_ & G & _).
  destruct (getSimulcastInfo_block {| stream_id := "s"; video_tracks := [] |} "v=0")
    as (Q & _).
  destruct (Q eq_refl) as (W & _).
  split; [reflexivity|]. split; [reflexivity|]. split; [reflexivity|].
  split; [exact G|exact W].
Defined.


Lemma gate_flush_fifo_witness :
  transitional (sig gate_stalled) = true
  /\ applied (state_change reject_odd Stable true
                (run_gate reject_odd [Submit 0 5; Submit 1 6] gate_stalled)) = [5; 6]
  /\ settled (state_change reject_odd Stable true
                (run_gate reject_odd [Submit 0 5; Submit 1 6] gate_stalled))
     = [(0, Rejected (Error "OperationError")); (1, Resolved)].
Proof.
  assert (Ht : transitional (sig gate_stalled) = true) by reflexivity.
  destruct (gate_flush_fifo nat reject_odd gate_stalled [(0, 5); (1, 6)] true Ht)
    as (_ & _ & _ & H4 & H5 & _).
  split; [exact Ht|]. split; [exact H4|exact H5].
Defined.

Lemma gate_closed_keeps_queue_witness :
  let g := {| sig := HaveLocalOffer; remote_set := true; candidatesQueue := [(0, 5)];
              applied := []; settled := [] |} in
  let evs := [Submit 1 6; StateChange Closed false; Submit 2 7] in
  closed_only evs = true
  /\ candidatesQueue (run_gate reject_odd (StateChange Closed true :: evs) g) = [(0, 5)]
  /\ settled (run_gate reject_odd (StateChange Closed true :: evs) g)
     = [(1, Rejected ConnectionClosed); (2, Rejected ConnectionClosed)]
  /\ (forall r, Submit 3 8 <> StateChange Stable r)
  /\ exists extra new,
       candidatesQueue (gate_step reject_odd g (Submit 3 8)) = [(0, 5)] ++ extra
       /\ settled (gate_step reject_odd g (Submit 3 8)) = [] ++ new
       /\ (forall x, In x (map fst new) -> In x [3]).
Proof.
  cbv zeta.
  destruct (gate_closed_keeps_queue nat reject_odd) as (P & Q).
  destruct (P {| sig := HaveLocalOffer; remote_set := true; candidatesQueue := [(0, 5)];
                 applied := []; settled := [] |} true
              [Submit 1 6; StateChange Closed false; Submit 2 7] eq_refl)
    as (_ & H2 & _ & H4).
  assert (Hs : forall r, Submit 3 8 <> @StateChange nat Stable r) by (intros r; discriminate).
  split; [reflexivity|]. split; [exact H2|]. split; [exact H4|]. split; [exact Hs|].
  exact (Q {| sig := HaveLocalOffer; remote_set := true; candidatesQueue := [(0, 5)];
              applied := []; settled := [] |} (Submit 3 8) Hs).
Defined.

Lemma gate_submit_cases_witness :
  let gc := {| sig := Closed; remote_set := true; candidatesQueue := [(0, 5)];
               applied := []; settled := [] |} in
  let gn := {| sig := Stable; remote_set := false; candidatesQueue := [];
               applied := []; settled := [] |} in
  let gr := {| sig := Stable; remote_set := true; candidatesQueue := [];
               applied := []; settled := [] |} in
  settled (submit reject_odd 1 6 gc) = [(1, Rejected ConnectionClosed)]
  /\ candidatesQueue (submit reject_odd 1 6 gc) = [(0, 5)]
  /\ settled (submit reject_odd 1 6 gn) = [(1, Rejected NoRemoteDescription)]
  /\ settled (submit reject_odd 1 7 gr) = [(1, Rejected (Error "OperationError"))]
  /\ applied (submit reject_odd 1 7 gr) = [7].
Proof.
  cbv zeta.
  destruct (gate_submit_cases nat reject_odd
              {| sig := Closed; remote_set := true; candidatesQueue := [(0, 5)];
                 applied := []; settled := [] |} 1 6) as (C & _ & _).
  destruct (gate_submit_cases nat reject_odd
              {| sig := Stable; remote_set := false; candidatesQueue := [];
                 applied := []; settled := [] |} 1 6) as (_ & N & _).
  destruct (gate_submit_cases nat reject_odd
              {| sig := Stable; remote_set := true; candidatesQueue := [];
                 applied := []; settled := [] |} 1 7) as (_ & _ & R).
  destruct (C eq_refl) as (C1 & _ & C3).
  destruct (N eq_refl eq_refl) as (_ & _ & N3).
  destruct (R eq_refl eq_refl) as (_ & R2 & R3).
  split; [exact C3|]. split; [exact C1|]. split; [exact N3|]. split; [exact R3|exact R2].
Defined.

Lemma gate_stable_queue_empty_witness :
  let evs := [Submit 0 1; Submit 1 2; StateChange Stable true] in
  sig (run_gate reject_odd evs (fresh_gate HaveLocalOffer false)) = Stable
  /\ candidatesQueue (run_gate reject_odd evs (fresh_gate HaveLocalOffer false)) = [].
Proof.
  cbv zeta. split; [reflexivity|].
  apply gate_stable_queue_empty. reflexivity.
Defined.

Lemma gate_settles_each_once_witness :
  let evs := [Submit 0 1; StateChange HaveLocalOffer false; Submit 1 2;
              StateChange Stable true] in
  NoDup (submitted_ids evs)
  /\ NoDup (map fst (settled (run_gate reject_odd evs (fresh_gate Stable true)))).
Proof.
  cbv zeta.
  assert (Hnd : NoDup (submitted_ids [Submit 0 1; StateChange HaveLocalOffer false;
                                      Submit 1 2; StateChange Stable true])).
  { simpl. apply NoDup_cons; [simpl; intros [H|[]]; discriminate|].
    apply NoDup_cons; [intros []|apply NoDup_nil]. }
  split; [exact Hnd|].
  apply (proj2 (gate_settles_each_once reject_odd Stable true _)). exact Hnd.
Defined.

Lemma outbound_done_not_emitted_after_candidate_witness :
  has_subscriber emitter_two_listeners = true
  /\ deliveries (run_emitter (map (fun c => IceCandidate (Some c)) [7; 8]
                              ++ [IceCandidate None]) emitter_two_listeners)
     = [(0, Some 7); (0, Some 8)].
Proof.
  destruct (outbound_done_not_emitted_after_candidate emitter_two_listeners 7 [8] eq_refl)
    as (D & _ & _).
  split; [reflexivity|]. rewrite D. reflexivity.
Defined.

Lemma setEnabled_getEnabled_witness :
  exists ss',
    setEnabled Audio false (Some senders_av) = inr (Some ss')
    /\ getEnabled Audio (Some ss') = false /\ getEnabled Video (Some ss') = true.
Proof.
  destruct (setEnabled_getEnabled Audio Video false senders_av) as (ss' & E & G & O).
  exists ss'. split; [exact E|]. split; [rewrite G; reflexivity|].
  destruct (O ltac:(discriminate)) as (_ & O2). rewrite O2. reflexivity.
Defined.

Lemma dispose_tears_down_witness :
  pc peer_open <> None /\ pc peer_open <> Some Closed /\ dc peer_open <> Some DcClosed
  /\ calls (completion_state (dispose no_throw peer_open))
     = [CallDcClose; CallTrackStop 0; CallTrackStop 1; CallPcClose].
Proof.
  assert (H1 : pc peer_open <> None) by discriminate.
  assert (H2 : pc peer_open <> Some Closed) by discriminate.
  assert (H3 : dc peer_open <> Some DcClosed) by discriminate.
  destruct (dispose_tears_down peer_open H1 H2 H3) as (_ & C & _).
  split; [exact H1|]. split; [exact H2|]. split; [exact H3|].
  rewrite C. reflexivity.
Defined.

Lemma dispose_closed_channel_returns_witness :
  dc peer_dc_closed = Some DcClosed
  /\ pc (completion_state (dispose no_throw peer_dc_closed)) = Some Stable
  /\ dispose_events (completion_state (dispose no_throw peer_dc_closed)) = 0.
Proof.
  rewrite (dispose_closed_channel_returns no_throw peer_dc_closed eq_refl).
  split; [reflexivity|]. split; reflexivity.
Defined.


Lemma generateOffer_processAnswer_witness :
  fst (generateOffer offer_v0 browser_setLocalDescription false None Sendonly None
         offer_pc_stable) = inr "v=0"
  /\ signalingState (snd (processAnswer browser_setRemoteDescription
       (conn (snd (generateOffer offer_v0 browser_setLocalDescription false None Sendonly None
                    offer_pc_stable))) "v=0 answer")) = Stable.
Proof.
  destruct (generateOffer_processAnswer offer_v0 false None Sendonly None offer_pc_stable
              {| sd_type := SdpOffer; sd_sdp := "v=0" |} "v=0 answer"
              eq_refl eq_refl eq_refl (or_introl eq_refl)) as (sdp & F & P).
  vm_compute in F. injection F as <-. split; [reflexivity|]. rewrite P. reflexivity.
Defined.


Lemma start_closed_connection_witness :
  let r := start cam_ok no_display (sendonly_peer Closed "webcam") in
  requests (snd r) = [ReqUserMedia (Some (true, true))]
  /\ videoStream (snd r) = Some stream_cam
  /\ senders (snd r) = []
  /\ fst r = inl (Error closed_start_message).
Proof.
  cbv zeta.
  destruct (start_closed_connection cam_ok no_display (sendonly_peer Closed "webcam") eq_refl)
    as (_ & S & P).
  destruct (P ltac:(discriminate) eq_refl eq_refl eq_refl) as (R & V).
  destruct (V stream_cam eq_refl) as (V1 & F).
  split; [exact R|]. split; [exact V1|]. split; [exact S|exact F].
Defined.

Lemma start_adds_tracks_witness :
  senders (snd (start cam_ok no_display (sendonly_peer Stable "webcam"))) = [(0, "cam"); (1, "cam")]
  /\ fst (start cam_ok no_display (sendonly_peer Stable "screen"))
     = inl (Error "This library is not enabled for screen sharing").
Proof.
  destruct (start_adds_tracks cam_ok no_display (sendonly_peer Stable "webcam")
              ltac:(discriminate)) as (_ & P).
  destruct (P ltac:(discriminate) eq_refl eq_refl) as (W & _).
  assert (Hn : NoDup (map fst (senders (sendonly_peer Stable "webcam")
                               ++ stream_senders (Some stream_cam))))
    by (simpl; repeat constructor; simpl; lia).
  destruct (W eq_refl stream_cam eq_refl Hn) as (_ & _ & S).
  destruct (start_adds_tracks cam_ok no_display (sendonly_peer Stable "screen")
              ltac:(discriminate)) as (_ & Q).
  destruct (Q ltac:(discriminate) eq_refl eq_refl) as (_ & D).
  split; [exact S|]. rewrite (D ltac:(discriminate) eq_refl). reflexivity.
Defined.

Lemma start_twice_rejects_witness :
  let p1 := snd (start cam_ok no_display (sendonly_peer Stable "webcam")) in
  start cam_ok no_display (sendonly_peer Stable "webcam") = (inr tt, p1)
  /\ videoStream p1 = Some stream_cam
  /\ start cam_ok no_display p1 = (inl (Error "InvalidAccessError"), p1).
Proof.
  cbv zeta.
  assert (H1 : start cam_ok no_display (sendonly_peer Stable "webcam")
               = (inr tt, snd (start cam_ok no_display (sendonly_peer Stable "webcam"))))
    by (vm_compute; reflexivity).
  assert (H2 : videoStream (snd (start cam_ok no_display (sendonly_peer Stable "webcam")))
               = Some stream_cam) by (vm_compute; reflexivity).
  split; [exact H1|]. split; [exact H2|].
  exact (start_twice_rejects cam_ok no_display _ _ stream_cam 0 [1] H1 H2 eq_refl).
Defined.
